(** * 2D Space Shooter: the frame loop of [src/Game.tsx]

    A shallow embedding of the React component [Game]: the state it keeps
    ([useState] cells, [useRef] cells and the locals of the main effect's
    closure), the effect that builds a round, the keyboard and timer
    callbacks, and [animate], the function run once per animation frame.

    Numbers.  JavaScript numbers are IEEE doubles; coordinates and timers are
    modelled as exact rationals [Q] (so [0.35 - 21 * (1/60)] is exactly [0]),
    counters ([score], [lives]) as [Z].  Properties that hold only up to
    rounding are stated with [==] on [Q].  The one place where a number is
    turned into an array index, [Math.floor(Math.random() * enemies.length)],
    is modelled with the rounding of the product ([round53]).

    Meshes.  A [THREE.Mesh] is used by the game logic only through
    [position.x] and [position.y]; [position.z], geometry and material only
    matter for drawing and are left out.  The arrays held by the refs are
    lists; [arr.splice(i, 1)] is [delete i arr], [arr[i]] is [arr !! i] and an
    in-place change of [arr[i].position] is [<[i := _]> arr].

    React.  The functional updaters given to [setScore] and [setLives] are
    applied in the order they were queued, each to the result of the one
    before; the model applies them at once.  [animate] never reads [score],
    and reads [lives] only to show the damage cracks, so this is not
    observable inside a frame. *)

From Stdlib Require Import ZArith QArith Qabs Qminmax Qround Lia Lqa Bool String.
From stdpp Require Import base list.

Local Open Scope Z_scope.

(** ** Numbers *)

(** [a < b] on JavaScript numbers, as a boolean. *)
Definition Qlt_bool (a b : Q) : bool := negb (Qle_bool b a).

(** A value of [Math.random()]: a double in the interval from 0 (included)
    to 1 (excluded).  These doubles are the numbers
    [mantissa / 2 ^ exponent] for an integer [0 <= mantissa < 2 ^ 53] and
    [53 <= exponent <= 1074]. *)
Record Random : Type := mkRandom { mantissa : Z; exponent : Z }.

Definition validRandom (r : Random) : Prop :=
  0 <= mantissa r < 2 ^ 53 /\ 53 <= exponent r <= 1074.

Definition randomValue (r : Random) : Q :=
  (inject_Z (mantissa r) / inject_Z (2 ^ exponent r))%Q.

(** The integer with at most 53 significant bits that is nearest to [P >= 0],
    ties going to the even significand: IEEE round-to-nearest-even on the
    significand of a double. *)
Definition round53 (P : Z) : Z :=
  if P <? 2 ^ 53 then P
  else
    let sh := Z.log2 P - 52 in
    let q := P / 2 ^ sh in
    let rem := P mod 2 ^ sh in
    let half := 2 ^ (sh - 1) in
    (if rem <? half then q
     else if half <? rem then q + 1
     else if Z.even q then q else q + 1) * 2 ^ sh.

(** ** Constants (lines 5-6, 101, 290-305, 370) *)

Definition PLAYER_WIDTH : Q := 5 # 10.
Definition PLAYER_HEIGHT : Q := 1.
Definition viewHeight : Q := 10.
Definition BULLET_WIDTH : Q := 3 # 10.
Definition BULLET_HEIGHT : Q := 8 # 10.
Definition BULLET_SPEED : Q := 2 # 10.
Definition ENEMY_BULLET_WIDTH : Q := 25 # 100.
Definition ENEMY_BULLET_HEIGHT : Q := 6 # 10.
Definition ENEMY_BULLET_SPEED : Q := 8 # 100.
Definition ENEMY_WIDTH : Q := 5 # 10.
Definition ENEMY_HEIGHT : Q := 9 # 10.
Definition ENEMY_SPEED : Q := 4 # 100.
Definition speed : Q := 15 # 100.

(** ** Data model *)

(** A mesh, reduced to [position.x] and [position.y]. *)
Record Mesh : Type := mkMesh { pos_x : Q; pos_y : Q }.

(** An entry of the effect's local array [explosions] (line 310). *)
Record Explosion : Type := mkExplosion { mesh : Mesh; timer : Q }.

(** [moveRef.current] (lines 16-26). *)
Record Move : Type := mkMove {
  move_left : bool; move_right : bool; move_up : bool; move_down : bool
}.

(** [canvasSize] (lines 39-42): device pixels.  The height is
    [window.innerHeight]; for a height of 0 the aspect ratio of line 102 is
    [Infinity] or [NaN], which the rationals do not have, so the model covers
    the windows of positive height. *)
Record Size : Type := mkSize { width : Z; height : positive }.

(** The scene is the drawing surface; only whether [sceneRef.current] is set
    matters to the logic. *)
Record Scene : Type := mkScene { background : Z }.

Record Game : Type := mkGame {
  (* useState *)
  score : Z;
  lives : Z;
  gameOver : bool;
  canvasSize : Size;
  (* useRef *)
  sceneRef : option Scene;
  playerRef : option Mesh;
  bulletsRef : list Mesh;
  enemiesRef : list Mesh;
  enemyBulletsRef : list Mesh;
  moveRef : Move;
  (* locals of the main effect's closure *)
  running : bool;
  viewWidth : Q;
  explosions : list Explosion
}.

(** The component before its first effect has run (lines 10-45). *)
Definition initial (sz : Size) : Game :=
  {| score := 0; lives := 3; gameOver := false; canvasSize := sz;
     sceneRef := None; playerRef := None;
     bulletsRef := []; enemiesRef := []; enemyBulletsRef := [];
     moveRef := mkMove false false false false;
     running := false; viewWidth := 0; explosions := [] |}.

(** *** Field updates *)

Definition setScore (f : Z -> Z) (g : Game) : Game :=
  mkGame (f (score g)) (lives g) (gameOver g) (canvasSize g) (sceneRef g)
    (playerRef g) (bulletsRef g) (enemiesRef g) (enemyBulletsRef g)
    (moveRef g) (running g) (viewWidth g) (explosions g).

Definition set_lives (l : Z) (g : Game) : Game :=
  mkGame (score g) l (gameOver g) (canvasSize g) (sceneRef g)
    (playerRef g) (bulletsRef g) (enemiesRef g) (enemyBulletsRef g)
    (moveRef g) (running g) (viewWidth g) (explosions g).

Definition setGameOver (b : bool) (g : Game) : Game :=
  mkGame (score g) (lives g) b (canvasSize g) (sceneRef g)
    (playerRef g) (bulletsRef g) (enemiesRef g) (enemyBulletsRef g)
    (moveRef g) (running g) (viewWidth g) (explosions g).

Definition setCanvasSize (sz : Size) (g : Game) : Game :=
  mkGame (score g) (lives g) (gameOver g) sz (sceneRef g)
    (playerRef g) (bulletsRef g) (enemiesRef g) (enemyBulletsRef g)
    (moveRef g) (running g) (viewWidth g) (explosions g).

Definition set_player (p : Mesh) (g : Game) : Game :=
  mkGame (score g) (lives g) (gameOver g) (canvasSize g) (sceneRef g)
    (Some p) (bulletsRef g) (enemiesRef g) (enemyBulletsRef g)
    (moveRef g) (running g) (viewWidth g) (explosions g).

Definition set_bullets (l : list Mesh) (g : Game) : Game :=
  mkGame (score g) (lives g) (gameOver g) (canvasSize g) (sceneRef g)
    (playerRef g) l (enemiesRef g) (enemyBulletsRef g)
    (moveRef g) (running g) (viewWidth g) (explosions g).

Definition set_enemies (l : list Mesh) (g : Game) : Game :=
  mkGame (score g) (lives g) (gameOver g) (canvasSize g) (sceneRef g)
    (playerRef g) (bulletsRef g) l (enemyBulletsRef g)
    (moveRef g) (running g) (viewWidth g) (explosions g).

Definition set_enemyBullets (l : list Mesh) (g : Game) : Game :=
  mkGame (score g) (lives g) (gameOver g) (canvasSize g) (sceneRef g)
    (playerRef g) (bulletsRef g) (enemiesRef g) l
    (moveRef g) (running g) (viewWidth g) (explosions g).

Definition set_move (m : Move) (g : Game) : Game :=
  mkGame (score g) (lives g) (gameOver g) (canvasSize g) (sceneRef g)
    (playerRef g) (bulletsRef g) (enemiesRef g) (enemyBulletsRef g)
    m (running g) (viewWidth g) (explosions g).

Definition set_running (b : bool) (g : Game) : Game :=
  mkGame (score g) (lives g) (gameOver g) (canvasSize g) (sceneRef g)
    (playerRef g) (bulletsRef g) (enemiesRef g) (enemyBulletsRef g)
    (moveRef g) b (viewWidth g) (explosions g).

Definition set_explosions (l : list Explosion) (g : Game) : Game :=
  mkGame (score g) (lives g) (gameOver g) (canvasSize g) (sceneRef g)
    (playerRef g) (bulletsRef g) (enemiesRef g) (enemyBulletsRef g)
    (moveRef g) (running g) (viewWidth g) l.

(** [explosions.push(e)]. *)
Definition push_explosion (e : Explosion) (g : Game) : Game :=
  set_explosions (explosions g ++ [e]) g.

(** ** [handleRestart] (lines 53-57) *)

Definition handleRestart (g : Game) : Game :=
  setGameOver false (set_lives 3 (setScore (fun _ => 0) g)).

(** ** Timer callbacks *)

(** [enemyInterval] (lines 313-331); [r] is the value of [Math.random()],
    taken as a rational like the coordinate that is computed from it. *)
Definition enemyInterval (r : Q) (g : Game) : Game :=
  match sceneRef g with
  | None => g
  | Some _ =>
    let leftBound := (- viewWidth g / 2 + ENEMY_WIDTH / 2)%Q in
    let rightBound := (viewWidth g / 2 - ENEMY_WIDTH / 2)%Q in
    let enemy := mkMesh (r * (rightBound - leftBound) + leftBound)%Q
                        (5 + ENEMY_HEIGHT / 2)%Q in
    set_enemies (enemiesRef g ++ [enemy]) g
  end.

(** [Math.floor(Math.random() * enemies.length)] as an array index.  The
    exact product of the draw [m / 2 ^ t] and the length [n] is
    [(m * n) / 2 ^ t]; the double product is that number with its significand
    rounded to 53 bits, and [Math.floor] of it is an integer division.  (A
    product below [2 ^ -1022] keeps fewer bits, and has floor 0 either
    way.) *)
Definition randomIndex (r : Random) (n : nat) : nat :=
  Z.to_nat (round53 (mantissa r * Z.of_nat n) / 2 ^ exponent r).

(** [enemyShootInterval] (lines 334-366); [r] is the value of
    [Math.random()]. *)
Definition enemyShootInterval (r : Random) (g : Game) : Game :=
  match sceneRef g, enemiesRef g with
  | None, _ => g
  | Some _, [] => g
  | Some _, enemies =>
    match enemies !! randomIndex r (length enemies) with
    | Some randomEnemy =>
      if Qlt_bool (pos_y randomEnemy) 4 then
        let enemyBullet :=
          mkMesh (pos_x randomEnemy)
                 (pos_y randomEnemy - ENEMY_HEIGHT / 2
                  - ENEMY_BULLET_HEIGHT / 2)%Q in
        set_enemyBullets (enemyBulletsRef g ++ [enemyBullet]) g
      else g
    | None => g
    end
  end.

(** ** Player control *)

(** [shoot] (lines 377-427). *)
Definition shoot (g : Game) : Game :=
  match sceneRef g, playerRef g with
  | Some _, Some player =>
    let leftBullet :=
      mkMesh (pos_x player - PLAYER_WIDTH * (75 # 100)
              + - PLAYER_WIDTH * (4 # 10))%Q
             (pos_y player - PLAYER_HEIGHT * (1 # 10)
              - PLAYER_HEIGHT * (6 # 10) + PLAYER_HEIGHT * (5 # 10))%Q in
    let rightBullet :=
      mkMesh (pos_x player + PLAYER_WIDTH * (75 # 100)
              + PLAYER_WIDTH * (4 # 10))%Q
             (pos_y player - PLAYER_HEIGHT * (1 # 10)
              - PLAYER_HEIGHT * (6 # 10) + PLAYER_HEIGHT * (5 # 10))%Q in
    let centerBullet :=
      mkMesh (pos_x player)
             (pos_y player + PLAYER_HEIGHT / 2 + BULLET_HEIGHT / 2)%Q in
    set_bullets (((bulletsRef g ++ [leftBullet]) ++ [rightBullet])
                 ++ [centerBullet]) g
  | _, _ => g
  end.

(** A [KeyboardEvent], reduced to the two fields the handlers read. *)
Record KeyboardEvent : Type := mkKey { key : string; code : string }.

Definition isKey (e : KeyboardEvent) (a b c : string) : bool :=
  String.eqb (key e) a || String.eqb (key e) b || String.eqb (key e) c.

(** [onKeyDown] (lines 429-442). *)
Definition onKeyDown (e : KeyboardEvent) (g : Game) : Game :=
  let m := moveRef g in
  let m1 := if isKey e "ArrowLeft" "a" "A"
            then mkMove true (move_right m) (move_up m) (move_down m) else m in
  let m2 := if isKey e "ArrowRight" "d" "D"
            then mkMove (move_left m1) true (move_up m1) (move_down m1) else m1 in
  let m3 := if isKey e "ArrowUp" "w" "W"
            then mkMove (move_left m2) (move_right m2) true (move_down m2) else m2 in
  let m4 := if isKey e "ArrowDown" "s" "S"
            then mkMove (move_left m3) (move_right m3) (move_up m3) true else m3 in
  let g' := set_move m4 g in
  if String.eqb (key e) " " || String.eqb (code e) "Space" then shoot g' else g'.

(** [onKeyUp] (lines 443-452). *)
Definition onKeyUp (e : KeyboardEvent) (g : Game) : Game :=
  let m := moveRef g in
  let m1 := if isKey e "ArrowLeft" "a" "A"
            then mkMove false (move_right m) (move_up m) (move_down m) else m in
  let m2 := if isKey e "ArrowRight" "d" "D"
            then mkMove (move_left m1) false (move_up m1) (move_down m1) else m1 in
  let m3 := if isKey e "ArrowUp" "w" "W"
            then mkMove (move_left m2) (move_right m2) false (move_down m2) else m2 in
  let m4 := if isKey e "ArrowDown" "s" "S"
            then mkMove (move_left m3) (move_right m3) (move_up m3) false else m3 in
  set_move m4 g.

(** ** [animate] (lines 458-697) *)

(** The bounding-box test written out at lines 559-564, 608-613 and 648-653:
    [Math.abs(a.x - b.x) < w && Math.abs(a.y - b.y) < h]. *)
Definition overlap (a b : Mesh) (w h : Q) : bool :=
  Qlt_bool (Qabs (pos_x a - pos_x b)) w
  && Qlt_bool (Qabs (pos_y a - pos_y b)) h.

(** [for (let i = n - 1; i >= 0; i--) body(i)]. *)
Fixpoint forDown {S : Type} (n : nat) (body : nat -> S -> S) (s : S) : S :=
  match n with
  | O => s
  | S i => forDown i body (body i s)
  end.

(** Lines 463-477: translation by the held keys, then the clamp. *)
Definition movePlayer (m : Move) (vw : Q) (p : Mesh) : Mesh :=
  let leftBound := (- vw / 2 + PLAYER_WIDTH / 2)%Q in
  let rightBound := (vw / 2 - PLAYER_WIDTH / 2)%Q in
  let x1 := if move_left m then (pos_x p - speed)%Q else pos_x p in
  let x2 := if move_right m then (x1 + speed)%Q else x1 in
  let y1 := if move_up m then (pos_y p + speed)%Q else pos_y p in
  let y2 := if move_down m then (y1 - speed)%Q else y1 in
  let x3 := Qmax leftBound (Qmin rightBound x2) in
  let topBound := (viewHeight / 2 - PLAYER_HEIGHT / 2)%Q in
  let bottomBound := (- viewHeight / 2 + PLAYER_HEIGHT / 2)%Q in
  let y3 := Qmax bottomBound (Qmin topBound y2) in
  mkMesh x3 y3.

(** The test of lines 559-564 for bullet [b] and enemy [e]. *)
Definition bulletHitsEnemy (b e : Mesh) : bool :=
  overlap b e ((BULLET_WIDTH + ENEMY_WIDTH) / 2)%Q
              ((BULLET_HEIGHT + ENEMY_HEIGHT) / 2)%Q.

(** The inner loop (lines 556-594) up to its [break]: the index and the mesh
    of the first enemy, counting [j] down from [n - 1], that [b] overlaps. *)
Fixpoint scanEnemies (b : Mesh) (enemies : list Mesh) (n : nat)
  : option (nat * Mesh) :=
  match n with
  | O => None
  | S j =>
    match enemies !! j with
    | Some e =>
      if bulletHitsEnemy b e then Some (j, e) else scanEnemies b enemies j
    | None => scanEnemies b enemies j
    end
  end.

(** One turn of the loop over [bullets] (lines 548-595). *)
Definition bulletStep (i : nat) (g : Game) : Game :=
  match bulletsRef g !! i with
  | None => g
  | Some b0 =>
    let b := mkMesh (pos_x b0) (pos_y b0 + BULLET_SPEED)%Q in
    let g1 := set_bullets (<[i := b]> (bulletsRef g)) g in
    if Qlt_bool (5 + BULLET_HEIGHT)%Q (pos_y b) then
      set_bullets (delete i (bulletsRef g1)) g1
    else
      match scanEnemies b (enemiesRef g1) (length (enemiesRef g1)) with
      | Some (j, e) =>
        let g2 := push_explosion (mkExplosion e (35 # 100)) g1 in
        let g3 := set_bullets (delete i (bulletsRef g2)) g2 in
        let g4 := set_enemies (delete j (enemiesRef g3)) g3 in
        setScore (fun s => s + 1) g4
      | None => g1
      end
  end.

(** The updater given to [setLives] at lines 630-633 and 670-673. *)
Definition loseLife (g : Game) : Game :=
  let l := lives g in
  let g' := if l <=? 1 then setGameOver true g else g in
  set_lives (l - 1) g'.

(** The test of lines 608-613 for enemy bullet [eb] and the player [p]. *)
Definition enemyBulletHitsPlayer (eb p : Mesh) : bool :=
  overlap eb p ((ENEMY_BULLET_WIDTH + PLAYER_WIDTH) / 2)%Q
               ((ENEMY_BULLET_HEIGHT + PLAYER_HEIGHT) / 2)%Q.

(** One turn of the loop over [enemyBulletsRef.current] (lines 597-641). *)
Definition enemyBulletStep (p : Mesh) (i : nat) (g : Game) : Game :=
  match enemyBulletsRef g !! i with
  | None => g
  | Some b0 =>
    let eb := mkMesh (pos_x b0) (pos_y b0 - ENEMY_BULLET_SPEED)%Q in
    let g1 := set_enemyBullets (<[i := eb]> (enemyBulletsRef g)) g in
    if Qlt_bool (pos_y eb) (-5 - ENEMY_BULLET_HEIGHT)%Q then
      set_enemyBullets (delete i (enemyBulletsRef g1)) g1
    else if enemyBulletHitsPlayer eb p then
      let g2 := push_explosion (mkExplosion p (5 # 10)) g1 in
      let g3 := set_enemyBullets (delete i (enemyBulletsRef g2)) g2 in
      loseLife g3
    else g1
  end.

(** The test of lines 648-653 for enemy [e] and the player [p]. *)
Definition enemyHitsPlayer (e p : Mesh) : bool :=
  overlap e p ((ENEMY_WIDTH + PLAYER_WIDTH) / 2)%Q
              ((ENEMY_HEIGHT + PLAYER_HEIGHT) / 2)%Q.

(** One turn of the loop over [enemies] (lines 643-686). *)
Definition enemyStep (p : Mesh) (i : nat) (g : Game) : Game :=
  match enemiesRef g !! i with
  | None => g
  | Some e0 =>
    let e := mkMesh (pos_x e0) (pos_y e0 - ENEMY_SPEED)%Q in
    let g1 := set_enemies (<[i := e]> (enemiesRef g)) g in
    if enemyHitsPlayer e p then
      let g2 := push_explosion (mkExplosion p (5 # 10)) g1 in
      let g3 := set_enemies (delete i (enemiesRef g2)) g2 in
      loseLife g3
    else if Qlt_bool (pos_y e) (-5 - ENEMY_HEIGHT)%Q then
      set_enemies (delete i (enemiesRef g1)) g1
    else g1
  end.

(** One turn of the loop over [explosions] (lines 688-694). *)
Definition explosionStep (i : nat) (g : Game) : Game :=
  match explosions g !! i with
  | None => g
  | Some ex =>
    let ex' := mkExplosion (mesh ex) (timer ex - 1 / 60)%Q in
    let g1 := set_explosions (<[i := ex']> (explosions g)) g in
    if Qle_bool (timer ex') 0 then
      set_explosions (delete i (explosions g1)) g1
    else g1
  end.

(** The four loops of a frame, for the player mesh [p] after its move. *)
Definition updateBullets (g : Game) : Game :=
  forDown (length (bulletsRef g)) bulletStep g.

Definition updateEnemyBullets (p : Mesh) (g : Game) : Game :=
  forDown (length (enemyBulletsRef g)) (enemyBulletStep p) g.

Definition updateEnemies (p : Mesh) (g : Game) : Game :=
  forDown (length (enemiesRef g)) (enemyStep p) g.

Definition updateExplosions (g : Game) : Game :=
  forDown (length (explosions g)) explosionStep g.

(** [animate].  [None] is the uncaught [TypeError] of dereferencing
    [playerRef.current!] or [sceneRef.current!] while it is [null]; wings,
    cannons, flame, cracks and the final [render] only draw. *)
Definition animate (g : Game) : option Game :=
  if negb (running g) then Some g
  else
    match playerRef g, sceneRef g with
    | Some p0, Some _ =>
      let p := movePlayer (moveRef g) (viewWidth g) p0 in
      let g1 := set_player p g in
      let g2 := updateBullets g1 in
      let g3 := updateEnemyBullets p g2 in
      let g4 := updateEnemies p g3 in
      Some (updateExplosions g4)
    | _, _ => None
    end.

(** ** The main effect (lines 93-709) *)

(** Its body up to the first call of [animate] (lines 95-457): a new scene,
    the player at the bottom, empty arrays of enemies and enemy bullets, no
    explosions, no key held, the callbacks above installed.  [bulletsRef] is
    not assigned anywhere in it. *)
Definition roundSetup (g : Game) : Game :=
  let aspect := (inject_Z (width (canvasSize g)) /
                 inject_Z (Z.pos (height (canvasSize g))))%Q in
  {| score := score g; lives := lives g; gameOver := gameOver g;
     canvasSize := canvasSize g;
     sceneRef := Some (mkScene 0x0a0a2a);
     playerRef := Some (mkMesh 0 (-4));
     bulletsRef := bulletsRef g;
     enemiesRef := [];
     enemyBulletsRef := [];
     moveRef := mkMove false false false false;
     running := true;
     viewWidth := (viewHeight * aspect)%Q;
     explosions := [] |}.

(** The body of the effect: nothing when the game is over (line 94), else
    the setup and the call [animate()] of line 698, which runs the first
    frame before the effect returns.  The scene and the player were just
    set, so that call cannot fail. *)
Definition gameEffect (g : Game) : Game :=
  if gameOver g then g
  else
    let g0 := roundSetup g in
    match animate g0 with
    | Some g1 => g1
    | None => g0
    end.

(** Its cleanup (lines 701-708); the two intervals are cleared, which the
    model renders by no timer callback being delivered while [running] is
    off. *)
Definition cleanup (g : Game) : Game := set_running false g.

(** The restart button: [handleRestart], then React runs the main effect
    again because [gameOver] changed.  The run of the effect that saw
    [gameOver] returned at line 94 without a cleanup function. *)
Definition restart (g : Game) : Game := gameEffect (handleRestart g).

(** * The component over time

    What React and the browser do around the functions above: they deliver
    key presses, timer ticks, animation frames, resizes and clicks on the
    restart button, one at a time, and run the main effect again when one of
    its dependencies [gameOver] and [canvasSize] has changed. *)

Inductive Event : Type :=
  | Frame
  | KeyDown (e : KeyboardEvent)
  | KeyUp (e : KeyboardEvent)
  | EnemyTimer (r : Q)
  | EnemyShootTimer (r : Random)
  | Resize (sz : Size)
  | RestartClick.

(** The first run of the main effect. *)
Definition mount (sz : Size) : Game := gameEffect (initial sz).

(** A new run of the main effect: the cleanup that its previous run
    returned, if it returned one, then its body. *)
Definition runEffect (before after : Game) : Game :=
  gameEffect (if gameOver before then after else cleanup after).

(** After a handler that may have changed [gameOver]. *)
Definition rerender (before after : Game) : Game :=
  if Bool.eqb (gameOver before) (gameOver after) then after
  else runEffect before after.

(** One event.  The key listeners and the two intervals exist from the body
    of the effect to its cleanup, that is while [running]; the restart button
    is drawn while [gameOver] (line 741); [handleResize] stores a new object,
    so the effect always runs again after it. *)
Definition deliver (ev : Event) (g : Game) : option Game :=
  match ev with
  | Frame =>
    match animate g with
    | Some g' => Some (rerender g g')
    | None => None
    end
  | KeyDown e => Some (if running g then onKeyDown e g else g)
  | KeyUp e => Some (if running g then onKeyUp e g else g)
  | EnemyTimer r => Some (if running g then enemyInterval r g else g)
  | EnemyShootTimer r =>
    Some (if running g then enemyShootInterval r g else g)
  | Resize sz => Some (runEffect g (setCanvasSize sz g))
  | RestartClick =>
    Some (if gameOver g then rerender g (handleRestart g) else g)
  end.

Fixpoint run (evs : list Event) (g : Game) : option Game :=
  match evs with
  | [] => Some g
  | ev :: evs' =>
    match deliver ev g with
    | Some g' => run evs' g'
    | None => None
    end
  end.

(** * Definitions for the statements

    The functions of this part are not in the source: they name what the
    loops of [animate] are shown to compute. *)

(** How many entries of [l] satisfy [f]. *)
Definition countIf {A : Type} (f : A -> bool) (l : list A) : nat :=
  length (List.filter f l).

(** What a collision with the player does besides removing the colliding
    entity: the explosion of lines 614-627 (654-667) and the [setLives] call. *)
Definition playerHit (p : Mesh) (g : Game) : Game :=
  loseLife (push_explosion (mkExplosion p (5 # 10)) g).

(** ** Enemy bullets *)

Definition advanceEnemyBullet (b : Mesh) : Mesh :=
  mkMesh (pos_x b) (pos_y b - ENEMY_BULLET_SPEED)%Q.

(** Line 600, for a bullet already advanced. *)
Definition enemyBulletGone (eb : Mesh) : bool :=
  Qlt_bool (pos_y eb) (-5 - ENEMY_BULLET_HEIGHT)%Q.

(** An enemy bullet of the array costs a life in this frame. *)
Definition enemyBulletStrikes (p b : Mesh) : bool :=
  negb (enemyBulletGone (advanceEnemyBullet b))
  && enemyBulletHitsPlayer (advanceEnemyBullet b) p.

(** What is left of an enemy bullet of the array after this frame. *)
Definition enemyBulletFate (p b : Mesh) : option Mesh :=
  let eb := advanceEnemyBullet b in
  if enemyBulletGone eb then None
  else if enemyBulletHitsPlayer eb p then None
  else Some eb.

(** ** Enemies *)

Definition advanceEnemy (e : Mesh) : Mesh :=
  mkMesh (pos_x e) (pos_y e - ENEMY_SPEED)%Q.

(** Line 682, for an enemy already advanced. *)
Definition enemyGone (e : Mesh) : bool :=
  Qlt_bool (pos_y e) (-5 - ENEMY_HEIGHT)%Q.

(** An enemy of the array rams the player in this frame. *)
Definition enemyRams (p e : Mesh) : bool :=
  enemyHitsPlayer (advanceEnemy e) p.

(** What is left of an enemy of the array after the loop over enemies. *)
Definition enemyFate (p e0 : Mesh) : option Mesh :=
  let e := advanceEnemy e0 in
  if enemyHitsPlayer e p then None
  else if enemyGone e then None
  else Some e.

(** ** Explosions *)

(** What is left of an explosion of the array after the loop: its timer is
    [1/60] lower, and it is gone if that is no longer positive. *)
Definition explosionFate (ex : Explosion) : option Explosion :=
  let ex' := mkExplosion (mesh ex) (timer ex - 1 / 60)%Q in
  if Qle_bool (timer ex') 0 then None else Some ex'.

(** ** The player's bullets *)

Definition advanceBullet (b : Mesh) : Mesh :=
  mkMesh (pos_x b) (pos_y b + BULLET_SPEED)%Q.

(** Line 550, for a bullet already advanced. *)
Definition bulletGone (b : Mesh) : bool :=
  Qlt_bool (5 + BULLET_HEIGHT)%Q (pos_y b).

(** The explosion pushed at line 581 for a destroyed enemy [e]. *)
Definition marker (e : Mesh) : Explosion := mkExplosion e (35 # 100).

(** What one turn of the loop does with the bullet it visits. *)
Inductive BulletOutcome : Type :=
  | Pruned
  | Kills (j : nat) (e : Mesh)
  | Flies.

Definition bulletOutcome (b0 : Mesh) (enemies : list Mesh) : BulletOutcome :=
  let b := advanceBullet b0 in
  if bulletGone b then Pruned
  else match scanEnemies b enemies (length enemies) with
       | Some (j, e) => Kills j e
       | None => Flies
       end.

(** A bullet of the array flies on in this frame whatever the order of the
    turns: it stays under the limit and reaches none of [enemies]. *)
Definition bulletFlies (enemies : list Mesh) (b0 : Mesh) : bool :=
  negb (bulletGone (advanceBullet b0))
  && forallb (fun e => negb (bulletHitsEnemy (advanceBullet b0) e)) enemies.

(** What is left of a bullet of the array after a frame without enemies. *)
Definition bulletFate (b0 : Mesh) : option Mesh :=
  if bulletGone (advanceBullet b0) then None else Some (advanceBullet b0).

(** [for (let i = n - 1; i >= k; i--) body(i)]: the turns of [forDown n]
    that come before the turn of index [k - 1]. *)
Fixpoint forDownTo {S : Type} (k n : nat) (body : nat -> S -> S) (s : S) : S :=
  match n with
  | O => s
  | S m => if (m <? k)%nat then s else forDownTo k m body (body m s)
  end.

(** The state in which the loop over the bullets reaches index [i]: the
    bullets above it have had their turns, which may have destroyed
    enemies. *)
Definition bulletsTurn (i : nat) (g : Game) : Game :=
  forDownTo (S i) (length (bulletsRef g)) bulletStep g.

(** The fields of the state that the loop over bullets leaves alone. *)
Definition besideBullets (g : Game) :=
  (lives g, gameOver g, canvasSize g, sceneRef g, playerRef g,
   enemyBulletsRef g, moveRef g, running g, viewWidth g).

(** ** A whole frame *)

(** The fields of the state that losing lives leaves alone. *)
Definition besideHits (g : Game) :=
  (score g, canvasSize g, sceneRef g, playerRef g, bulletsRef g,
   enemiesRef g, enemyBulletsRef g, moveRef g, running g, viewWidth g).

(** How many times the player is hit in the frame that starts in [g] with
    the player, already moved, at [p]: once per enemy bullet that reaches the
    player, and once per enemy, among those the bullets spared, that rams. *)
Definition playerHits (g : Game) (p : Mesh) : nat :=
  (countIf (enemyBulletStrikes p) (enemyBulletsRef g)
   + countIf (enemyRams p) (enemiesRef (updateBullets (set_player p g))))%nat.

(** The state at the end of a frame that starts in [g], for the moved
    player [p]. *)
Definition frame (g : Game) (p : Mesh) : Game :=
  let gb := updateBullets (set_player p g) in
  let g4 :=
    set_enemies (omap (enemyFate p) (enemiesRef gb))
      (set_enemyBullets (omap (enemyBulletFate p) (enemyBulletsRef g))
         (Nat.iter (playerHits g p) (playerHit p) gb)) in
  set_explosions (omap explosionFate (explosions g4)) g4.

(** ** The state over time *)

(** The part of the state the invariant is about. *)
Definition core (g : Game) :=
  (lives g, gameOver g, running g, playerRef g, sceneRef g).

(** [gameOver] is on exactly when no life is left; the frame loop runs
    exactly while [gameOver] is off; the player and the scene exist. *)
Definition sound (g : Game) : Prop :=
  (gameOver g = true <-> lives g <= 0) /\
  running g = negb (gameOver g) /\
  is_Some (playerRef g) /\ is_Some (sceneRef g).

(** * Sample states *)

(** A round just built for an 800 x 600 canvas. *)
Definition fresh : Game := gameEffect (initial (mkSize 800 600%positive)).

(** [fresh] with two enemy bullets on the player. *)
Definition twoShots : Game :=
  set_enemyBullets [mkMesh 0 (-4); mkMesh (1 # 10) (-38 # 10)] fresh.

(** [twoShots] with one life left. *)
Definition lastLife : Game := set_lives 1 twoShots.

(** [fresh] with a bullet under an enemy, and a second enemy about to leave
    through the bottom. *)
Definition oneKill : Game :=
  set_enemies [mkMesh 3 (-59 # 10); mkMesh 0 5]
    (set_bullets [mkMesh 0 (49 # 10)] fresh).

(** [fresh] with a bullet that is about to pass the upper limit, under an
    enemy that has just been spawned. *)
Definition lateBullet : Game :=
  set_enemies [mkMesh 0 (545 # 100)]
    (set_bullets [mkMesh 0 (57 # 10)] fresh).

(** [fresh] with two bullets under one enemy. *)
Definition twoOnOne : Game :=
  set_enemies [mkMesh 0 5]
    (set_bullets [mkMesh 0 (49 # 10); mkMesh (1 # 10) (49 # 10)] fresh).

(** A round built for a canvas of 40 x 1000 pixels: the view is 0.4 units
    wide, narrower than the player. *)
Definition narrow : Game := gameEffect (initial (mkSize 40 1000%positive)).

(** [fresh] with the four direction keys held and the player in the top
    right corner of the view. *)
Definition allKeys : Game :=
  set_move (mkMove true true true true)
    (set_player (mkMesh (77 # 12) (45 # 10)) fresh).

(** Three values of [Math.random()]: 0, one half, and a double just below
    two thirds, whose product with 3 is rounded up to 2. *)
Definition drawZero : Random := mkRandom 0 53.

Definition drawHalf : Random := mkRandom (2 ^ 52) 53.

Definition drawRoundedUp : Random := mkRandom 6004799503160661 53.

(** [fresh] with one enemy in the middle of the view. *)
Definition oneEnemy : Game := set_enemies [mkMesh 0 3] fresh.

(** [fresh] with three enemies, the last one still above height 4. *)
Definition threeEnemies : Game :=
  set_enemies [mkMesh (-2) 3; mkMesh 0 3; mkMesh 2 (45 # 10)] fresh.

(** [fresh] with one explosion under way. *)
Definition oneBlast : Game :=
  set_explosions [mkExplosion (mkMesh 0 5) (20 # 60)] fresh.

(** A game that ends with bullets in the air: the player goes to the top of
    the view, is rammed twice by enemies spawned above it, fires, and two
    frames later, when the centre bullet has left through the top, is rammed
    a third time by an enemy spawned between the paths of the side bullets. *)
Definition lostGame : list Event :=
  [KeyDown (mkKey "ArrowUp" "ArrowUp")] ++ replicate 57 Frame
  ++ [EnemyTimer (1 # 2); Frame; EnemyTimer (1 # 2); Frame;
      KeyDown (mkKey " " "Space"); Frame; Frame; EnemyTimer (1 # 2); Frame].

(** * The rest of the component *)

(** ** The high score (lines 43-45 and 71-76)

    The item ['highScore'] of [localStorage] is [None] while it has never
    been written and [Some n] when it holds the decimal string of the
    integer [n], which is all the component ever writes. *)
Record Board : Type := mkBoard { highScore : Z; storedHighScore : option Z }.

(** [Number(localStorage.getItem('highScore') || 0)] (line 44). *)
Definition loadHighScore (item : option Z) : Z :=
  match item with
  | Some n => n
  | None => 0
  end.

(** The board when the component is created from the stored item. *)
Definition initialBoard (item : option Z) : Board :=
  mkBoard (loadHighScore item) item.

(** The effect of lines 71-76, for the current [score]. *)
Definition highScoreEffect (sc : Z) (b : Board) : Board :=
  if highScore b <? sc then mkBoard sc (Some sc) else b.

(** One event, followed by the high-score effect for the score it left. *)
Definition deliverScored (ev : Event) (s : Game * Board)
  : option (Game * Board) :=
  match deliver ev (fst s) with
  | Some g' => Some (g', highScoreEffect (score g') (snd s))
  | None => None
  end.

Fixpoint runScored (evs : list Event) (s : Game * Board)
  : option (Game * Board) :=
  match evs with
  | [] => Some s
  | ev :: evs' =>
    match deliverScored ev s with
    | Some s' => runScored evs' s'
    | None => None
    end
  end.

(** The component after its first render and effects, for a canvas [sz] and
    a stored item [item]. *)
Definition mountScored (sz : Size) (item : option Z) : Game * Board :=
  (mount sz, highScoreEffect (score (mount sz)) (initialBoard item)).

(** ** The row of life icons (lines 717-732) *)

Inductive Icon : Type := shipIcon.

(** [Array.from({ length: lives }).map(...)]: the length of an array-like is
    taken to be 0 when it is negative. *)
Definition LivesIcons (g : Game) : list Icon :=
  replicate (Z.to_nat (lives g)) shipIcon.

(** ** Definitions for the statements about the rest *)

(** An explosion after [k] turns of the loop over explosions, [None] once it
    has been removed. *)
Definition ticks (k : nat) (ex : Explosion) : option Explosion :=
  Nat.iter k (fun o => match o with
                       | Some e => explosionFate e
                       | None => None
                       end) (Some ex).

(** The enemy that [enemyInterval] makes for the draw [r] in a view of width
    [vw] (lines 324-327). *)
Definition spawnedEnemy (r vw : Q) : Mesh :=
  mkMesh (r * ((vw / 2 - ENEMY_WIDTH / 2) - (- vw / 2 + ENEMY_WIDTH / 2))
          + (- vw / 2 + ENEMY_WIDTH / 2))%Q
         (5 + ENEMY_HEIGHT / 2)%Q.

(** The key events of the controls. *)
Definition spaceKey : KeyboardEvent := mkKey " " "Space".

(** The score and the lives. *)
Definition tally (g : Game) := (score g, lives g).

(** The events that reach a handler while the game is over: all but a resize
    and a click on the restart button. *)
Definition passive (ev : Event) : bool :=
  match ev with
  | Resize _ | RestartClick => false
  | _ => true
  end.

(** ** More sample states *)

(** [fresh] with an enemy bullet just above the player: its next advance
    takes it 0.72 above the player's centre, inside the collision box. *)
Definition grazing : Game := set_enemyBullets [mkMesh 0 (-32 # 10)] fresh.

(** [fresh] with one enemy, spawned in the middle and 36 frames down. *)
Definition hurried : Game :=
  set_enemies [Nat.iter 36 advanceEnemy (spawnedEnemy (1 # 2) (40 # 3))] fresh.

(** [fresh] with an enemy bullet and an enemy at the player's height, both
    just far enough to its side. *)
Definition sideStep : Game :=
  set_enemies [mkMesh (-1 # 2) (-4)]
    (set_enemyBullets [mkMesh (3 # 8) (-4)] fresh).

(** * What each loop of a frame computes

    Each loop walks its array from the last index down and removes entries
    with [splice] while it walks.  The lemmas of this part show that no entry
    is skipped or visited twice, and give each loop as a function of the list
    it started from. *)

(** ** Lists as arrays *)

Section Arrays.
Context {A : Type}.
Implicit Types (l pre suf : list A) (a b : A).

Lemma lookup_snoc_app pre a suf :
  ((pre ++ [a]) ++ suf) !! length pre = Some a.
Proof. rewrite <- app_assoc. now apply list_lookup_middle. Qed.

Lemma insert_snoc_app pre a b suf :
  <[length pre := b]> ((pre ++ [a]) ++ suf) = pre ++ b :: suf.
Proof.
  rewrite <- app_assoc, insert_app_r_alt by lia.
  now rewrite Nat.sub_diag.
Qed.

Lemma delete_snoc_app pre a suf :
  delete (length pre) ((pre ++ [a]) ++ suf) = pre ++ suf.
Proof. rewrite <- app_assoc. apply delete_middle. Qed.

Lemma delete_insert_same l i b : delete i (<[i := b]> l) = delete i l.
Proof.
  revert i. induction l as [|a l IH]; intros [|i]; simpl; try reflexivity.
  unfold delete in *; simpl. f_equal. apply IH.
Qed.

Lemma countIf_app f pre suf :
  countIf f (pre ++ suf) = (countIf f pre + countIf f suf)%nat.
Proof. unfold countIf. now rewrite List.filter_app, length_app. Qed.

Lemma countIf_snoc f pre a :
  countIf f (pre ++ [a]) = (countIf f pre + if f a then 1 else 0)%nat.
Proof. rewrite countIf_app. unfold countIf; simpl. now destruct (f a). Qed.

End Arrays.

(** ** Comparisons *)

Lemma Qlt_bool_iff (a b : Q) : Qlt_bool a b = true <-> (a < b)%Q.
Proof.
  unfold Qlt_bool. rewrite negb_true_iff. split.
  - intros H. apply Qnot_le_lt. intros Hle.
    apply Qle_bool_iff in Hle. congruence.
  - intros H. destruct (Qle_bool b a) eqn:E; [|reflexivity].
    apply Qle_bool_iff in E. exfalso. exact (Qlt_not_le _ _ H E).
Qed.

Lemma Qlt_bool_false_iff (a b : Q) : Qlt_bool a b = false <-> (b <= a)%Q.
Proof.
  unfold Qlt_bool. rewrite negb_false_iff. apply Qle_bool_iff.
Qed.

(** ** Losing lives *)

Ltac game_eq :=
  repeat match goal with g : Game |- _ => destruct g end;
  unfold playerHit, loseLife, push_explosion, setScore, set_lives,
    setGameOver, set_player, set_bullets, set_enemies, set_enemyBullets,
    set_explosions, set_running, set_move; simpl;
  repeat match goal with
         | |- context [Z.leb ?a ?b] => destruct (Z.leb a b)
         end;
  try reflexivity.

Lemma playerHit_set_enemyBullets p l g :
  playerHit p (set_enemyBullets l g) = set_enemyBullets l (playerHit p g).
Proof. game_eq. Qed.

Lemma playerHit_set_enemies p l g :
  playerHit p (set_enemies l g) = set_enemies l (playerHit p g).
Proof. game_eq. Qed.

Lemma iter_playerHit_set_enemyBullets p l n g :
  Nat.iter n (playerHit p) (set_enemyBullets l g)
  = set_enemyBullets l (Nat.iter n (playerHit p) g).
Proof.
  induction n as [|n IH]; simpl; [reflexivity|].
  now rewrite IH, playerHit_set_enemyBullets.
Qed.

Lemma iter_playerHit_set_enemies p l n g :
  Nat.iter n (playerHit p) (set_enemies l g)
  = set_enemies l (Nat.iter n (playerHit p) g).
Proof.
  induction n as [|n IH]; simpl; [reflexivity|].
  now rewrite IH, playerHit_set_enemies.
Qed.

Lemma set_enemyBullets_twice l l' g :
  set_enemyBullets l (set_enemyBullets l' g) = set_enemyBullets l g.
Proof. game_eq. Qed.

Lemma set_enemies_twice l l' g :
  set_enemies l (set_enemies l' g) = set_enemies l g.
Proof. game_eq. Qed.

Lemma set_explosions_twice l l' g :
  set_explosions l (set_explosions l' g) = set_explosions l g.
Proof. game_eq. Qed.

Lemma set_bullets_twice l l' g :
  set_bullets l (set_bullets l' g) = set_bullets l g.
Proof. game_eq. Qed.

Lemma lives_loseLife g : lives (loseLife g) = lives g - 1.
Proof. unfold loseLife. destruct (lives g <=? 1); now destruct g. Qed.

Lemma gameOver_loseLife g :
  gameOver (loseLife g) = gameOver g || (lives g <=? 1).
Proof.
  unfold loseLife.
  destruct (lives g <=? 1); destruct g; simpl;
    now rewrite ?orb_true_r, ?orb_false_r.
Qed.

Lemma lives_playerHit p g : lives (playerHit p g) = lives g - 1.
Proof. unfold playerHit. rewrite lives_loseLife. now destruct g. Qed.

Lemma gameOver_playerHit p g :
  gameOver (playerHit p g) = gameOver g || (lives g <=? 1).
Proof. unfold playerHit. rewrite gameOver_loseLife. now destruct g. Qed.

(** [n] hits in a row: [n] lives less, whatever the count was, and
    [gameOver] raised as soon as one of them found [lives <= 1]. *)
Lemma iter_playerHit_lives p n g :
  lives (Nat.iter n (playerHit p) g) = lives g - Z.of_nat n.
Proof.
  induction n as [|n IH]; [simpl; lia|].
  rewrite Nat.iter_succ, lives_playerHit, IH. lia.
Qed.

Lemma iter_playerHit_gameOver p n g :
  gameOver (Nat.iter n (playerHit p) g)
  = gameOver g || (negb (Nat.eqb n 0) && (lives g <=? Z.of_nat n)).
Proof.
  induction n as [|n IH]; [simpl; now rewrite orb_false_r|].
  rewrite Nat.iter_succ, gameOver_playerHit, iter_playerHit_lives, IH.
  change (negb (S n =? 0)%nat) with true. rewrite andb_true_l.
  destruct (gameOver g); simpl; [reflexivity|].
  destruct (lives g - Z.of_nat n <=? 1) eqn:L.
  - apply Z.leb_le in L. rewrite orb_true_r.
    symmetry; apply Z.leb_le; lia.
  - apply Z.leb_gt in L. rewrite orb_false_r.
    replace (lives g <=? Z.of_nat n) with false
      by (symmetry; apply Z.leb_gt; lia).
    rewrite andb_false_r. symmetry; apply Z.leb_gt; lia.
Qed.

(** ** The loop over enemy bullets *)

Lemma enemyBulletStep_last p pre a suf g :
  enemyBulletsRef g = (pre ++ [a]) ++ suf ->
  enemyBulletStep p (length pre) g
  = set_enemyBullets (pre ++ omap (enemyBulletFate p) [a] ++ suf)
      (Nat.iter (countIf (enemyBulletStrikes p) [a]) (playerHit p) g).
Proof.
  intros H. unfold enemyBulletStep. rewrite H, lookup_snoc_app.
  unfold countIf, enemyBulletStrikes, enemyBulletFate, enemyBulletGone,
    advanceEnemyBullet.
  cbn [List.filter omap list_omap].
  destruct (Qlt_bool _ _); cbn [negb andb length Nat.iter app].
  - cbn [set_enemyBullets enemyBulletsRef].
    now rewrite delete_insert_same, delete_snoc_app, set_enemyBullets_twice.
  - destruct (enemyBulletHitsPlayer _ p); cbn [length Nat.iter app].
    + unfold playerHit. cbn [set_enemyBullets push_explosion set_explosions
        enemyBulletsRef explosions].
      rewrite delete_insert_same, delete_snoc_app.
      destruct g; cbn. unfold loseLife; cbn [lives].
      now destruct (_ <=? 1).
    + now rewrite insert_snoc_app.
Qed.

Lemma enemyBullets_loop p pre :
  forall suf g,
    enemyBulletsRef g = pre ++ suf ->
    forDown (length pre) (enemyBulletStep p) g
    = set_enemyBullets (omap (enemyBulletFate p) pre ++ suf)
        (Nat.iter (countIf (enemyBulletStrikes p) pre) (playerHit p) g).
Proof.
  induction pre as [|a pre IH] using rev_ind; intros suf g H.
  - simpl in *. rewrite <- H. now destruct g.
  - rewrite length_app, Nat.add_1_r. cbn [forDown].
    rewrite (enemyBulletStep_last _ _ _ _ _ H).
    rewrite (IH (omap (enemyBulletFate p) [a] ++ suf)) by reflexivity.
    rewrite iter_playerHit_set_enemyBullets, set_enemyBullets_twice.
    rewrite omap_app, countIf_app, <- app_assoc.
    f_equal. symmetry. apply Nat.iter_add.
Qed.

(** The loop over enemy bullets, as a function of the array it starts from:
    every bullet advances once; those past the lower limit and those touching
    the player go; each of the latter costs one [playerHit]. *)
Lemma updateEnemyBullets_spec p g :
  updateEnemyBullets p g
  = set_enemyBullets (omap (enemyBulletFate p) (enemyBulletsRef g))
      (Nat.iter (countIf (enemyBulletStrikes p) (enemyBulletsRef g))
                (playerHit p) g).
Proof.
  unfold updateEnemyBullets.
  rewrite (enemyBullets_loop p (enemyBulletsRef g) [] g)
    by now rewrite app_nil_r.
  now rewrite app_nil_r.
Qed.

(** ** The loop over enemies *)

Lemma enemyStep_last p pre a suf g :
  enemiesRef g = (pre ++ [a]) ++ suf ->
  enemyStep p (length pre) g
  = set_enemies (pre ++ omap (enemyFate p) [a] ++ suf)
      (Nat.iter (countIf (enemyRams p) [a]) (playerHit p) g).
Proof.
  intros H. unfold enemyStep. rewrite H, lookup_snoc_app.
  unfold countIf, enemyRams, enemyFate, enemyGone, advanceEnemy.
  cbn [List.filter omap list_omap].
  destruct (enemyHitsPlayer _ p); cbn [length Nat.iter app].
  - unfold playerHit. cbn [set_enemies push_explosion set_explosions
      enemiesRef explosions].
    rewrite delete_insert_same, delete_snoc_app.
    destruct g; cbn. unfold loseLife; cbn [lives].
    now destruct (_ <=? 1).
  - destruct (Qlt_bool _ _); cbn [app].
    + cbn [set_enemies enemiesRef].
      now rewrite delete_insert_same, delete_snoc_app, set_enemies_twice.
    + now rewrite insert_snoc_app.
Qed.

Lemma enemies_loop p pre :
  forall suf g,
    enemiesRef g = pre ++ suf ->
    forDown (length pre) (enemyStep p) g
    = set_enemies (omap (enemyFate p) pre ++ suf)
        (Nat.iter (countIf (enemyRams p) pre) (playerHit p) g).
Proof.
  induction pre as [|a pre IH] using rev_ind; intros suf g H.
  - simpl in *. rewrite <- H. now destruct g.
  - rewrite length_app, Nat.add_1_r. cbn [forDown].
    rewrite (enemyStep_last _ _ _ _ _ H).
    rewrite (IH (omap (enemyFate p) [a] ++ suf)) by reflexivity.
    rewrite iter_playerHit_set_enemies, set_enemies_twice.
    rewrite omap_app, countIf_app, <- app_assoc.
    f_equal. symmetry. apply Nat.iter_add.
Qed.

(** The loop over enemies, as a function of the array it starts from. *)
Lemma updateEnemies_spec p g :
  updateEnemies p g
  = set_enemies (omap (enemyFate p) (enemiesRef g))
      (Nat.iter (countIf (enemyRams p) (enemiesRef g)) (playerHit p) g).
Proof.
  unfold updateEnemies.
  rewrite (enemies_loop p (enemiesRef g) [] g) by now rewrite app_nil_r.
  now rewrite app_nil_r.
Qed.

(** ** The loop over explosions *)

Lemma explosionStep_last pre a suf g :
  explosions g = (pre ++ [a]) ++ suf ->
  explosionStep (length pre) g
  = set_explosions (pre ++ omap explosionFate [a] ++ suf) g.
Proof.
  intros H. unfold explosionStep. rewrite H, lookup_snoc_app.
  unfold explosionFate. cbn [omap list_omap timer].
  destruct (Qle_bool _ _); cbn [app].
  - cbn [set_explosions explosions].
    now rewrite delete_insert_same, delete_snoc_app, set_explosions_twice.
  - now rewrite insert_snoc_app.
Qed.

Lemma explosions_loop pre :
  forall suf g,
    explosions g = pre ++ suf ->
    forDown (length pre) explosionStep g
    = set_explosions (omap explosionFate pre ++ suf) g.
Proof.
  induction pre as [|a pre IH] using rev_ind; intros suf g H.
  - simpl in *. rewrite <- H. now destruct g.
  - rewrite length_app, Nat.add_1_r. cbn [forDown].
    rewrite (explosionStep_last _ _ _ _ H).
    rewrite (IH (omap explosionFate [a] ++ suf)) by reflexivity.
    rewrite set_explosions_twice.
    now rewrite omap_app, <- app_assoc.
Qed.

(** The loop over explosions, as a function of the array it starts from. *)
Lemma updateExplosions_spec g :
  updateExplosions g = set_explosions (omap explosionFate (explosions g)) g.
Proof.
  unfold updateExplosions.
  rewrite (explosions_loop (explosions g) [] g) by now rewrite app_nil_r.
  now rewrite app_nil_r.
Qed.

(** ** The loop over the player's bullets *)

(** The scan returns the overlapping enemy of highest index below [n]. *)
Lemma scanEnemies_Some b enemies n j e :
  scanEnemies b enemies n = Some (j, e) ->
  (j < n)%nat /\ enemies !! j = Some e /\ bulletHitsEnemy b e = true /\
  forall j' e', (j < j' < n)%nat -> enemies !! j' = Some e' ->
                bulletHitsEnemy b e' = false.
Proof.
  induction n as [|n IH]; simpl; [discriminate|].
  destruct (enemies !! n) as [en|] eqn:En.
  - destruct (bulletHitsEnemy b en) eqn:Hit.
    + intros [= <- <-]. repeat split; auto. intros; lia.
    + intros H. destruct (IH H) as (Hj & He & Hh & Hrest).
      repeat split; auto. intros j' e' Hj' He'.
      destruct (Nat.eq_dec j' n) as [->|]; [congruence|].
      apply (Hrest j'); [lia|assumption].
  - intros H. destruct (IH H) as (Hj & He & Hh & Hrest).
    repeat split; auto. intros j' e' Hj' He'.
    destruct (Nat.eq_dec j' n) as [->|]; [congruence|].
    apply (Hrest j'); [lia|assumption].
Qed.

Lemma scanEnemies_None b enemies n :
  scanEnemies b enemies n = None ->
  forall j e, (j < n)%nat -> enemies !! j = Some e ->
              bulletHitsEnemy b e = false.
Proof.
  induction n as [|n IH]; simpl; [intros; lia|].
  destruct (enemies !! n) as [en|] eqn:En.
  - destruct (bulletHitsEnemy b en) eqn:Hit; [discriminate|].
    intros H j e Hj He.
    destruct (Nat.eq_dec j n) as [->|]; [congruence|].
    apply (IH H j); [lia|assumption].
  - intros H j e Hj He.
    destruct (Nat.eq_dec j n) as [->|]; [congruence|].
    apply (IH H j); [lia|assumption].
Qed.

(** A turn of the loop at index [i], by the outcome for the bullet there. *)
Lemma bulletStep_outcome i g b0 :
  bulletsRef g !! i = Some b0 ->
  bulletStep i g
  = match bulletOutcome b0 (enemiesRef g) with
    | Pruned => set_bullets (delete i (bulletsRef g)) g
    | Kills j e =>
      setScore (fun s => s + 1)
        (set_enemies (delete j (enemiesRef g))
           (set_bullets (delete i (bulletsRef g))
              (push_explosion (marker e) g)))
    | Flies => set_bullets (<[i := advanceBullet b0]> (bulletsRef g)) g
    end.
Proof.
  intros H. unfold bulletStep, bulletOutcome, bulletGone. rewrite H.
  fold (advanceBullet b0).
  cbn [set_bullets enemiesRef bulletsRef].
  destruct (Qlt_bool _ _).
  - now rewrite delete_insert_same, set_bullets_twice.
  - destruct (scanEnemies _ _ _) as [[j e]|]; [|reflexivity].
    cbn [push_explosion set_explosions bulletsRef enemiesRef set_bullets].
    rewrite delete_insert_same. now destruct g.
Qed.

Lemma bullets_loop pre :
  forall suf g,
    bulletsRef g = pre ++ suf ->
    exists pre' destroyed,
      let g' := forDown (length pre) bulletStep g in
      bulletsRef g' = pre' ++ suf /\
      pre' `sublist_of` (advanceBullet <$> pre) /\
      (length pre' + length destroyed <= length pre)%nat /\
      enemiesRef g ≡ₚ destroyed ++ enemiesRef g' /\
      enemiesRef g' `sublist_of` enemiesRef g /\
      explosions g' = explosions g ++ (marker <$> destroyed) /\
      score g' = score g + Z.of_nat (length destroyed) /\
      besideBullets g' = besideBullets g.
Proof.
  induction pre as [|a pre IH] using rev_ind; intros suf g H.
  - exists [], []. cbn. rewrite app_nil_r.
    repeat split; auto; try reflexivity. lia.
  - rewrite length_app, Nat.add_1_r. cbn [forDown].
    assert (Ha : bulletsRef g !! length pre = Some a)
      by (rewrite H; apply lookup_snoc_app).
    rewrite (bulletStep_outcome _ _ _ Ha), H.
    rewrite delete_snoc_app, insert_snoc_app.
    destruct (bulletOutcome a (enemiesRef g)) as [|j e|] eqn:Out.
    + destruct (IH suf (set_bullets (pre ++ suf) g) eq_refl)
        as (pre' & d & Hb & Hsub & Hlen & Hperm & Hes & Hex & Hsc & Hrest).
      exists pre', d. cbn zeta in *.
      repeat split; auto; try lia.
      rewrite fmap_app. now apply sublist_inserts_r.
    + unfold bulletOutcome in Out.
      destruct (bulletGone _); [discriminate|].
      destruct (scanEnemies _ _ _) as [[j' e']|] eqn:Scan; [|discriminate].
      injection Out as -> ->.
      apply scanEnemies_Some in Scan as (Hj & He & _).
      match goal with |- context [forDown _ _ ?s] =>
        destruct (IH suf s eq_refl)
          as (pre' & d & Hb & Hsub & Hlen & Hperm & Hes & Hex & Hsc & Hrest)
      end.
      exists pre', (e :: d). cbn zeta in *.
      cbn [enemiesRef explosions score setScore set_enemies set_bullets
           push_explosion set_explosions] in *.
      split; [exact Hb|].
      split; [rewrite fmap_app; now apply sublist_inserts_r|].
      split; [cbn [length]; lia|].
      split; [cbn [app]; rewrite <- Hperm; now apply delete_Permutation|].
      split; [etransitivity; [exact Hes|]; apply sublist_delete|].
      split; [rewrite Hex, <- app_assoc; reflexivity|].
      split; [rewrite Hsc; cbn [length]; lia|].
      rewrite Hrest. now destruct g.
    + destruct (IH (advanceBullet a :: suf)
                   (set_bullets (pre ++ advanceBullet a :: suf) g) eq_refl)
        as (pre' & d & Hb & Hsub & Hlen & Hperm & Hes & Hex & Hsc & Hrest).
      exists (pre' ++ [advanceBullet a]), d. cbn zeta in *.
      split; [now rewrite <- app_assoc|].
      split; [rewrite fmap_app; now apply sublist_app|].
      split; [rewrite length_app; cbn [length]; lia|].
      repeat split; auto.
Qed.

(** The loop over bullets, from the array it starts with: the bullets left
    are advanced bullets of the array, in their order; the enemies left are
    enemies of the array, in their order; every enemy that went ([destroyed])
    left one [marker] and one point, and took a bullet with it. *)
Lemma updateBullets_spec g :
  exists destroyed,
    bulletsRef (updateBullets g)
      `sublist_of` (advanceBullet <$> bulletsRef g) /\
    (length (bulletsRef (updateBullets g)) + length destroyed
     <= length (bulletsRef g))%nat /\
    enemiesRef g ≡ₚ destroyed ++ enemiesRef (updateBullets g) /\
    enemiesRef (updateBullets g) `sublist_of` enemiesRef g /\
    explosions (updateBullets g) = explosions g ++ (marker <$> destroyed) /\
    score (updateBullets g) = score g + Z.of_nat (length destroyed) /\
    besideBullets (updateBullets g) = besideBullets g.
Proof.
  unfold updateBullets.
  destruct (bullets_loop (bulletsRef g) [] g) as (pre' & d & H);
    [now rewrite app_nil_r|].
  cbn zeta in H. rewrite app_nil_r in H.
  destruct H as (Hb & H). rewrite Hb. exists d. exact H.
Qed.

(** *** The turn of one bullet *)

Lemma forDown_split {St : Type} (k n : nat) (body : nat -> St -> St) (s : St) :
  (k <= n)%nat -> forDown n body s = forDown k body (forDownTo k n body s).
Proof.
  revert s. induction n as [|n IH]; intros s Hk.
  - replace k with 0%nat by lia. reflexivity.
  - cbn [forDownTo]. destruct (Nat.ltb_spec n k) as [Hlt|Hge].
    + replace k with (S n) by lia. reflexivity.
    + cbn [forDown]. apply IH. lia.
Qed.

Lemma take_delete_ge {A : Type} (l : list A) :
  forall k m, (k <= m)%nat -> take k (delete m l) = take k l.
Proof.
  induction l as [|a l IH]; intros [|k] [|m] H; try reflexivity; try lia.
  cbn. f_equal. apply IH. lia.
Qed.

(** A turn at index [m] leaves the bullets below [m] alone, and removes
    at most enemies. *)
Lemma bulletStep_above (k m : nat) (g : Game) :
  (k <= m)%nat ->
  take k (bulletsRef (bulletStep m g)) = take k (bulletsRef g) /\
  enemiesRef (bulletStep m g) `sublist_of` enemiesRef g.
Proof.
  intros Hk. destruct (bulletsRef g !! m) as [b0|] eqn:Hb.
  - rewrite (bulletStep_outcome m g b0 Hb).
    destruct (bulletOutcome b0 (enemiesRef g)) as [|j e|];
      cbn [set_bullets setScore set_enemies push_explosion set_explosions
           bulletsRef enemiesRef].
    + split; [now apply take_delete_ge|reflexivity].
    + split; [now apply take_delete_ge|apply sublist_delete].
    + split; [now apply take_insert_ge|reflexivity].
  - unfold bulletStep. rewrite Hb. split; reflexivity.
Qed.

Lemma forDownTo_above (k n : nat) :
  forall g,
    take k (bulletsRef (forDownTo k n bulletStep g)) = take k (bulletsRef g) /\
    enemiesRef (forDownTo k n bulletStep g) `sublist_of` enemiesRef g.
Proof.
  induction n as [|n IH]; intros g; cbn [forDownTo].
  - split; reflexivity.
  - destruct (Nat.ltb_spec n k) as [Hlt|Hge]; [split; reflexivity|].
    destruct (IH (bulletStep n g)) as [Ht He].
    destruct (bulletStep_above k n g Hge) as [Ht' He'].
    split; [now rewrite Ht|now transitivity (enemiesRef (bulletStep n g))].
Qed.

(** When the loop reaches the bullet at index [i], that bullet and those
    below it are as the frame found them, and the enemies are those the
    turns of the bullets above have left; the loop then takes the turn of
    index [i] and those below. *)
Lemma bulletsTurn_spec (i : nat) (g : Game) (b0 : Mesh) :
  bulletsRef g !! i = Some b0 ->
  updateBullets g
  = forDown i bulletStep (bulletStep i (bulletsTurn i g)) /\
  bulletsRef (bulletsTurn i g) !! i = Some b0 /\
  take i (bulletsRef (bulletsTurn i g)) = take i (bulletsRef g) /\
  enemiesRef (bulletsTurn i g) `sublist_of` enemiesRef g.
Proof.
  intros Hb. pose proof (lookup_lt_Some _ _ _ Hb) as Hi.
  unfold updateBullets, bulletsTurn.
  destruct (forDownTo_above (S i) (length (bulletsRef g)) g) as [Ht He].
  split; [now rewrite (forDown_split (S i)) by lia|].
  split.
  { rewrite <- (lookup_take_lt _ (S i)) by lia. rewrite Ht.
    rewrite lookup_take_lt by lia. exact Hb. }
  split; [|exact He].
  apply (f_equal (take i)) in Ht. rewrite !take_take in Ht.
  now replace (i `min` S i)%nat with i in Ht by lia.
Qed.

(** A bullet that flies on is still in the array, advanced, when the loop
    ends. *)
Lemma bullet_flies_on (g : Game) (i : nat) (b0 : Mesh) :
  bulletsRef g !! i = Some b0 ->
  bulletFlies (enemiesRef g) b0 = true ->
  exists rest,
    bulletsRef (updateBullets g)
    = rest ++ advanceBullet b0 :: drop (S i) (bulletsRef (bulletsTurn i g)) /\
    rest `sublist_of` (advanceBullet <$> take i (bulletsRef g)).
Proof.
  intros Hb Hfly.
  destruct (bulletsTurn_spec i g b0 Hb) as (Hloop & HbT & Htake & He).
  set (T := bulletsTurn i g) in *.
  apply andb_true_iff in Hfly as [Hgone Hall].
  apply negb_true_iff in Hgone. rewrite forallb_forall in Hall.
  assert (Hout : bulletOutcome b0 (enemiesRef T) = Flies).
  { unfold bulletOutcome. rewrite Hgone.
    destruct (scanEnemies _ _ _) as [[j e]|] eqn:Scan; [|reflexivity].
    apply scanEnemies_Some in Scan as (_ & Hj & Hhit & _).
    assert (Hin : In e (enemiesRef g)).
    { apply list_elem_of_In. eapply elem_of_sublist; [|exact He].
      eapply list_elem_of_lookup_2; exact Hj. }
    apply Hall in Hin. rewrite Hhit in Hin. discriminate. }
  rewrite Hloop, (bulletStep_outcome i T b0 HbT), Hout.
  pose proof (lookup_lt_Some _ _ _ Hb) as Hi.
  destruct (bullets_loop (take i (bulletsRef g))
              (advanceBullet b0 :: drop (S i) (bulletsRef T))
              (set_bullets (<[i := advanceBullet b0]> (bulletsRef T)) T))
    as (rest & d & Hrest & Hsub & _).
  { cbn [set_bullets bulletsRef]. rewrite <- Htake.
    apply insert_take_drop. eapply lookup_lt_Some; exact HbT. }
  cbn zeta in Hrest. rewrite length_take_le in Hrest by lia.
  exists rest. split; [exact Hrest|exact Hsub].
Qed.

(** A bullet that destroys an enemy in its turn: when the loop ends, the
    bullet is not in the array, which holds what is left of the bullets
    below it and, unchanged, what its turn found above it; the enemy is not
    among the enemies; its marker is among the explosions; the score is at
    least one higher than the turn found it. *)
Lemma bullet_kills_on (g : Game) (i : nat) (b0 : Mesh) (j : nat) (e : Mesh) :
  bulletsRef g !! i = Some b0 ->
  bulletOutcome b0 (enemiesRef (bulletsTurn i g)) = Kills j e ->
  (exists rest,
      bulletsRef (updateBullets g)
      = rest ++ drop (S i) (bulletsRef (bulletsTurn i g)) /\
      rest `sublist_of` (advanceBullet <$> take i (bulletsRef g))) /\
  enemiesRef (updateBullets g)
    `sublist_of` delete j (enemiesRef (bulletsTurn i g)) /\
  marker e ∈ explosions (updateBullets g) /\
  score (bulletsTurn i g) + 1 <= score (updateBullets g).
Proof.
  intros Hb Hout.
  destruct (bulletsTurn_spec i g b0 Hb) as (Hloop & HbT & Htake & He).
  set (T := bulletsTurn i g) in *.
  rewrite Hloop, (bulletStep_outcome i T b0 HbT), Hout.
  pose proof (lookup_lt_Some _ _ _ Hb) as Hi.
  match goal with |- context [forDown i bulletStep ?K] =>
    destruct (bullets_loop (take i (bulletsRef g))
                (drop (S i) (bulletsRef T)) K)
      as (rest & d & Hrest & Hsub & _ & _ & Hes & Hex & Hsc & _)
  end.
  { cbn [setScore set_enemies set_bullets push_explosion set_explosions
         bulletsRef]. rewrite <- Htake. apply delete_take_drop. }
  cbn zeta in Hrest, Hes, Hex, Hsc.
  rewrite length_take_le in Hrest, Hes, Hex, Hsc by lia.
  split; [exists rest; split; [exact Hrest|exact Hsub]|].
  split; [exact Hes|].
  split.
  - rewrite Hex.
    cbn [setScore set_enemies set_bullets push_explosion set_explosions
         explosions].
    rewrite !elem_of_app, list_elem_of_singleton. auto.
  - rewrite Hsc. cbn [setScore set_enemies set_bullets push_explosion
                      set_explosions score]. lia.
Qed.

(** When every bullet flies on, the loop advances them all and does nothing
    else. *)
Lemma bullets_loop_all_fly pre :
  forall suf g,
    bulletsRef g = pre ++ suf ->
    Forall (fun b0 => bulletFlies (enemiesRef g) b0 = true) pre ->
    forDown (length pre) bulletStep g
    = set_bullets ((advanceBullet <$> pre) ++ suf) g.
Proof.
  induction pre as [|a pre IH] using rev_ind; intros suf g H Hall.
  - cbn in *. rewrite <- H. now destruct g.
  - rewrite length_app, Nat.add_1_r. cbn [forDown].
    assert (Ha : bulletsRef g !! length pre = Some a)
      by (rewrite H; apply lookup_snoc_app).
    apply Forall_app in Hall as [Hpre Hlast].
    apply Forall_inv in Hlast.
    apply andb_true_iff in Hlast as [Hgone Hnone].
    apply negb_true_iff in Hgone. rewrite forallb_forall in Hnone.
    assert (Hout : bulletOutcome a (enemiesRef g) = Flies).
    { unfold bulletOutcome. rewrite Hgone.
      destruct (scanEnemies _ _ _) as [[j e]|] eqn:Scan; [|reflexivity].
      apply scanEnemies_Some in Scan as (_ & Hj & Hhit & _).
      assert (Hin : In e (enemiesRef g)).
      { apply list_elem_of_In. eapply list_elem_of_lookup_2; exact Hj. }
      apply Hnone in Hin. rewrite Hhit in Hin. discriminate. }
    rewrite (bulletStep_outcome _ _ _ Ha), Hout, H, insert_snoc_app.
    rewrite (IH (advanceBullet a :: suf)); [|reflexivity|exact Hpre].
    rewrite set_bullets_twice, fmap_app, <- app_assoc. reflexivity.
Qed.

Lemma updateBullets_all_fly g :
  Forall (fun b0 => bulletFlies (enemiesRef g) b0 = true) (bulletsRef g) ->
  updateBullets g = set_bullets (advanceBullet <$> bulletsRef g) g.
Proof.
  intros Hall. unfold updateBullets.
  rewrite (bullets_loop_all_fly (bulletsRef g) [] g);
    [now rewrite app_nil_r|now rewrite app_nil_r|exact Hall].
Qed.

(** ** A whole frame *)

Lemma iter_playerHit_beside p n g :
  besideHits (Nat.iter n (playerHit p) g) = besideHits g.
Proof.
  induction n as [|n IH]; [reflexivity|].
  rewrite Nat.iter_succ, <- IH.
  generalize (Nat.iter n (playerHit p) g). intros s.
  unfold playerHit, loseLife, push_explosion.
  destruct (_ <=? 1); now destruct s.
Qed.

Lemma explosions_playerHit p g :
  explosions (playerHit p g) = explosions g ++ [mkExplosion p (5 # 10)].
Proof.
  unfold playerHit, loseLife, push_explosion.
  destruct (_ <=? 1); now destruct g.
Qed.

Lemma replicate_snoc {A : Type} (n : nat) (a : A) :
  replicate n a ++ [a] = replicate (S n) a.
Proof. induction n as [|n IH]; simpl in *; [reflexivity|now rewrite IH]. Qed.

Lemma iter_playerHit_explosions p n g :
  explosions (Nat.iter n (playerHit p) g)
  = explosions g ++ replicate n (mkExplosion p (5 # 10)).
Proof.
  induction n as [|n IH]; [simpl; now rewrite app_nil_r|].
  rewrite Nat.iter_succ, explosions_playerHit, IH, <- app_assoc.
  now rewrite replicate_snoc.
Qed.

Lemma animate_frame g p0 sc :
  running g = true -> playerRef g = Some p0 -> sceneRef g = Some sc ->
  animate g = Some (frame g (movePlayer (moveRef g) (viewWidth g) p0)).
Proof.
  intros Hr Hp Hs. unfold animate. rewrite Hr, Hp, Hs. cbn [negb].
  f_equal. set (p := movePlayer _ _ _).
  unfold frame, playerHits.
  set (gb := updateBullets (set_player p g)).
  assert (Heb : enemyBulletsRef gb = enemyBulletsRef g).
  { destruct (updateBullets_spec (set_player p g)) as (d & _ & _ & _ & _ & _ & _ & B).
    fold gb in B. unfold besideBullets in B. now injection B. }
  rewrite updateExplosions_spec, updateEnemies_spec, updateEnemyBullets_spec.
  rewrite Heb.
  set (l1 := omap (enemyBulletFate p) (enemyBulletsRef g)).
  set (k1 := countIf (enemyBulletStrikes p) (enemyBulletsRef g)).
  assert (He : enemiesRef (set_enemyBullets l1 (Nat.iter k1 (playerHit p) gb))
               = enemiesRef gb).
  { cbn [set_enemyBullets enemiesRef].
    pose proof (iter_playerHit_beside p k1 gb) as B.
    unfold besideHits in B. now injection B. }
  rewrite He.
  rewrite iter_playerHit_set_enemyBullets, <- Nat.iter_add.
  rewrite (Nat.add_comm _ k1). reflexivity.
Qed.

(** *** The fields of the state at the end of a frame *)

Lemma besideBullets_fields g g' :
  besideBullets g = besideBullets g' ->
  lives g = lives g' /\ gameOver g = gameOver g' /\
  sceneRef g = sceneRef g' /\ playerRef g = playerRef g' /\
  enemyBulletsRef g = enemyBulletsRef g' /\ moveRef g = moveRef g' /\
  running g = running g' /\ viewWidth g = viewWidth g' /\
  canvasSize g = canvasSize g'.
Proof. unfold besideBullets. intros [= -> -> -> -> -> -> -> -> ->]. tauto. Qed.

Lemma besideHits_fields g g' :
  besideHits g = besideHits g' ->
  score g = score g' /\ sceneRef g = sceneRef g' /\
  playerRef g = playerRef g' /\ bulletsRef g = bulletsRef g' /\
  enemiesRef g = enemiesRef g' /\ enemyBulletsRef g = enemyBulletsRef g' /\
  moveRef g = moveRef g' /\ running g = running g' /\
  viewWidth g = viewWidth g' /\ canvasSize g = canvasSize g'.
Proof. unfold besideHits. intros [= -> -> -> -> -> -> -> -> -> ->]. tauto. Qed.

Lemma updateBullets_beside g :
  lives (updateBullets g) = lives g /\
  gameOver (updateBullets g) = gameOver g /\
  sceneRef (updateBullets g) = sceneRef g /\
  playerRef (updateBullets g) = playerRef g /\
  enemyBulletsRef (updateBullets g) = enemyBulletsRef g /\
  moveRef (updateBullets g) = moveRef g /\
  running (updateBullets g) = running g /\
  viewWidth (updateBullets g) = viewWidth g /\
  canvasSize (updateBullets g) = canvasSize g.
Proof.
  destruct (updateBullets_spec g) as (d & _ & _ & _ & _ & _ & _ & B).
  now apply besideBullets_fields.
Qed.

Lemma lives_frame g p :
  lives (frame g p) = lives g - Z.of_nat (playerHits g p).
Proof.
  unfold frame. cbn [set_explosions set_enemies set_enemyBullets lives].
  rewrite iter_playerHit_lives.
  destruct (updateBullets_beside (set_player p g)) as (-> & _). reflexivity.
Qed.

Lemma gameOver_frame g p :
  gameOver (frame g p)
  = gameOver g
    || (negb (Nat.eqb (playerHits g p) 0)
        && (lives g <=? Z.of_nat (playerHits g p))).
Proof.
  unfold frame. cbn [set_explosions set_enemies set_enemyBullets gameOver].
  rewrite iter_playerHit_gameOver.
  destruct (updateBullets_beside (set_player p g)) as (-> & -> & _).
  reflexivity.
Qed.

Lemma frame_beside g p :
  let gb := updateBullets (set_player p g) in
  score (frame g p) = score gb /\ bulletsRef (frame g p) = bulletsRef gb /\
  playerRef (frame g p) = Some p /\ sceneRef (frame g p) = sceneRef g /\
  running (frame g p) = running g /\ viewWidth (frame g p) = viewWidth g /\
  moveRef (frame g p) = moveRef g /\ canvasSize (frame g p) = canvasSize g.
Proof.
  intros gb. unfold frame. fold gb.
  cbn [set_explosions set_enemies set_enemyBullets score bulletsRef
       playerRef sceneRef running viewWidth moveRef canvasSize].
  destruct (besideHits_fields _ _
              (iter_playerHit_beside p (playerHits g p) gb))
    as (-> & -> & -> & -> & _ & _ & -> & -> & -> & ->).
  destruct (updateBullets_beside (set_player p g))
    as (_ & _ & Hs & Hp & _ & Hm & Hr & Hv & Hc).
  fold gb in Hs, Hp, Hm, Hr, Hv, Hc.
  rewrite Hs, Hp, Hm, Hr, Hv, Hc. now destruct g.
Qed.

Lemma explosions_frame g p :
  explosions (frame g p)
  = omap explosionFate
      (explosions (updateBullets (set_player p g))
       ++ replicate (playerHits g p) (mkExplosion p (5 # 10))).
Proof.
  unfold frame. cbn [set_explosions set_enemies set_enemyBullets explosions].
  now rewrite iter_playerHit_explosions.
Qed.

(** ** A frame without enemies *)

Lemma bullets_loop_no_enemies pre :
  forall suf g,
    bulletsRef g = pre ++ suf -> enemiesRef g = [] ->
    forDown (length pre) bulletStep g
    = set_bullets (omap bulletFate pre ++ suf) g.
Proof.
  induction pre as [|a pre IH] using rev_ind; intros suf g H He.
  - cbn in *. rewrite <- H. now destruct g.
  - rewrite length_app, Nat.add_1_r. cbn [forDown].
    assert (Ha : bulletsRef g !! length pre = Some a)
      by (rewrite H; apply lookup_snoc_app).
    rewrite (bulletStep_outcome _ _ _ Ha), H, He.
    rewrite delete_snoc_app, insert_snoc_app.
    rewrite omap_app. unfold bulletOutcome. cbn [scanEnemies length].
    cbn [omap list_omap]. unfold bulletFate at 2.
    destruct (bulletGone (advanceBullet a)).
    + rewrite (IH suf); [|reflexivity|exact He].
      rewrite set_bullets_twice, app_nil_r. reflexivity.
    + rewrite (IH (advanceBullet a :: suf)); [|reflexivity|exact He].
      rewrite set_bullets_twice, <- app_assoc. reflexivity.
Qed.

(** With no enemy in the array, the loop over bullets only advances the
    bullets and removes those past the limit. *)
Lemma updateBullets_no_enemies g :
  enemiesRef g = [] ->
  updateBullets g = set_bullets (omap bulletFate (bulletsRef g)) g.
Proof.
  intros He. unfold updateBullets.
  rewrite (bullets_loop_no_enemies (bulletsRef g) [] g);
    [now rewrite app_nil_r|now rewrite app_nil_r|exact He].
Qed.

(** A frame of a round with no enemy, no enemy bullet and no explosion only
    moves the player and the bullets. *)
Lemma frame_empty g p :
  enemiesRef g = [] -> enemyBulletsRef g = [] -> explosions g = [] ->
  frame g p = set_bullets (omap bulletFate (bulletsRef g)) (set_player p g).
Proof.
  intros He Hb Hx. destruct g; cbn in He, Hb, Hx; subst.
  unfold frame, playerHits.
  rewrite updateBullets_no_enemies by reflexivity. reflexivity.
Qed.

(** ** The main effect *)

(** The first frame, run by the effect itself, finds the arrays of enemies
    and enemy bullets empty: it clamps the player into the view and moves
    the bullets that an earlier round left in [bulletsRef]. *)
Lemma gameEffect_playing g :
  gameOver g = false ->
  gameEffect g
  = set_bullets (omap bulletFate (bulletsRef g))
      (set_player
         (movePlayer (mkMove false false false false)
                     (viewWidth (roundSetup g)) (mkMesh 0 (-4)))
         (roundSetup g)).
Proof.
  intros Hgo. unfold gameEffect. rewrite Hgo.
  rewrite (animate_frame (roundSetup g) (mkMesh 0 (-4)) (mkScene 0x0a0a2a))
    by reflexivity.
  now rewrite frame_empty by reflexivity.
Qed.

Lemma gameEffect_over g : gameOver g = true -> gameEffect g = g.
Proof. intros Hgo. unfold gameEffect. now rewrite Hgo. Qed.

Lemma gameEffect_fields g :
  gameOver g = false ->
  score (gameEffect g) = score g /\ lives (gameEffect g) = lives g /\
  gameOver (gameEffect g) = false /\ running (gameEffect g) = true /\
  canvasSize (gameEffect g) = canvasSize g /\
  sceneRef (gameEffect g) = Some (mkScene 0x0a0a2a) /\
  playerRef (gameEffect g)
  = Some (movePlayer (mkMove false false false false)
                     (viewWidth (roundSetup g)) (mkMesh 0 (-4))) /\
  bulletsRef (gameEffect g) = omap bulletFate (bulletsRef g) /\
  enemiesRef (gameEffect g) = [] /\ enemyBulletsRef (gameEffect g) = [] /\
  explosions (gameEffect g) = [] /\
  moveRef (gameEffect g) = mkMove false false false false /\
  viewWidth (gameEffect g) = viewWidth (roundSetup g).
Proof.
  intros Hgo. rewrite (gameEffect_playing g Hgo).
  cbn [set_bullets set_player roundSetup score lives gameOver running
       canvasSize sceneRef playerRef bulletsRef enemiesRef enemyBulletsRef
       explosions moveRef viewWidth].
  rewrite Hgo. repeat split.
Qed.

(** ** What holds at all times *)

Lemma sound_core g g' : core g = core g' -> sound g -> sound g'.
Proof.
  unfold core, sound. intros [= -> -> -> -> ->]. tauto.
Qed.

Lemma core_shoot g : core (shoot g) = core g.
Proof.
  unfold shoot. now destruct (sceneRef g), (playerRef g).
Qed.

Lemma core_onKeyDown e g : core (onKeyDown e g) = core g.
Proof.
  unfold onKeyDown.
  destruct (_ || _)%bool; [rewrite core_shoot|]; reflexivity.
Qed.

Lemma core_onKeyUp e g : core (onKeyUp e g) = core g.
Proof. reflexivity. Qed.

Lemma core_enemyInterval r g : core (enemyInterval r g) = core g.
Proof.
  unfold enemyInterval. now destruct (sceneRef g).
Qed.

Lemma core_enemyShootInterval r g : core (enemyShootInterval r g) = core g.
Proof.
  unfold enemyShootInterval.
  destruct (sceneRef g); [|reflexivity].
  destruct (enemiesRef g) as [|e0 es]; [reflexivity|].
  destruct (_ !! _); [|reflexivity].
  now destruct (Qlt_bool _ _).
Qed.

Lemma sound_gameEffect g :
  (gameOver g = true <-> lives g <= 0) -> gameOver g = false ->
  sound (gameEffect g).
Proof.
  intros HJ Hgo. unfold sound.
  destruct (gameEffect_fields g Hgo)
    as (_ & -> & -> & -> & _ & -> & -> & _).
  rewrite Hgo in HJ. split; [exact HJ|]. repeat split; eauto.
Qed.

Lemma sound_mount sz : sound (mount sz).
Proof.
  unfold mount.
  apply sound_gameEffect; cbn; [split; [discriminate|lia]|reflexivity].
Qed.

Lemma sound_deliver ev g :
  sound g -> exists g', deliver ev g = Some g' /\ sound g'.
Proof.
  intros Hg. pose proof Hg as (HJ & Hrun & [p0 Hp] & [sc Hs]).
  destruct ev as [|e|e|r|r|sz|]; cbn [deliver].
  - destruct (running g) eqn:Hr.
    + assert (Hgo : gameOver g = false) by now destruct (gameOver g).
      set (p := movePlayer (moveRef g) (viewWidth g) p0).
      rewrite (animate_frame g p0 sc Hr Hp Hs). fold p.
      eexists. split; [reflexivity|].
      destruct (frame_beside g p) as (_ & _ & Hfp & Hfs & Hfr & _).
      assert (HJ' : gameOver (frame g p) = true <-> lives (frame g p) <= 0).
      { rewrite lives_frame, gameOver_frame, Hgo, orb_false_l.
        rewrite andb_true_iff, negb_true_iff, Nat.eqb_neq, Z.leb_le.
        assert (0 < lives g) by (destruct HJ as [_ HJ];
          destruct (Z.le_gt_cases (lives g) 0) as [Hle|]; [|lia];
          apply HJ in Hle; congruence).
        lia. }
      unfold rerender. rewrite Hgo.
      destruct (gameOver (frame g p)) eqn:Hgo'; cbn [Bool.eqb].
      * unfold runEffect. rewrite Hgo.
        rewrite gameEffect_over by exact Hgo'. unfold cleanup.
        unfold sound. cbn [set_running gameOver lives running playerRef
                           sceneRef].
        rewrite Hgo', Hfp, Hfs, Hs. repeat split; eauto; apply HJ'.
      * unfold sound. rewrite Hgo', Hfp, Hfs, Hfr, Hr, Hs.
        repeat split; eauto; apply HJ'.
    + exists g. unfold animate. rewrite Hr. cbn [negb].
      unfold rerender. rewrite eqb_reflx. split; [reflexivity|assumption].
  - eexists. split; [reflexivity|].
    destruct (running g); [|assumption].
    apply (sound_core g); [symmetry; apply core_onKeyDown|assumption].
  - eexists. split; [reflexivity|].
    destruct (running g); [|assumption].
    apply (sound_core g); [symmetry; apply core_onKeyUp|assumption].
  - eexists. split; [reflexivity|].
    destruct (running g); [|assumption].
    apply (sound_core g); [symmetry; apply core_enemyInterval|assumption].
  - eexists. split; [reflexivity|].
    destruct (running g); [|assumption].
    apply (sound_core g);
      [symmetry; apply core_enemyShootInterval|assumption].
  - eexists. split; [reflexivity|]. unfold runEffect.
    destruct (gameOver g) eqn:Hgo.
    + rewrite gameEffect_over by exact Hgo.
      apply (sound_core g); [reflexivity|assumption].
    + apply sound_gameEffect; cbn; rewrite ?Hgo; [assumption|reflexivity].
  - eexists. split; [reflexivity|].
    destruct (gameOver g) eqn:Hgo; [|assumption].
    unfold rerender, runEffect. rewrite Hgo. cbn [handleRestart setGameOver
      gameOver Bool.eqb].
    apply sound_gameEffect; cbn; [split; [discriminate|lia]|reflexivity].
Qed.

(** From a sound state no sequence of events makes [animate] fail, and the
    state stays sound: in particular, while the game is in play, at least
    one life is left. *)
Lemma sound_run evs :
  forall g, sound g -> exists g', run evs g = Some g' /\ sound g'.
Proof.
  induction evs as [|ev evs IH]; intros g Hg; cbn [run].
  - exists g. split; [reflexivity|assumption].
  - destruct (sound_deliver ev g Hg) as (g1 & -> & Hg1). now apply IH.
Qed.

Lemma in_play_lives_positive g :
  sound g -> gameOver g = false -> 0 < lives g.
Proof.
  intros ((_ & HJ) & _) Hgo.
  destruct (Z.le_gt_cases (lives g) 0) as [Hle|]; [|lia].
  apply HJ in Hle. congruence.
Qed.

(** * Lives *)

(** C1.  In every frame [lives] does not increase; and a frame that starts
    in play ([gameOver] off, which goes with a positive [lives]) ends with
    [gameOver] on exactly when it ends with [lives] at 0 or below: the flag
    is raised in the frame in which the count gets there, not later. *)
Theorem lives_nonincreasing_gameOver_exact (g : Game) (p0 : Mesh) (sc : Scene) :
  playerRef g = Some p0 -> sceneRef g = Some sc ->
  exists g',
    animate g = Some g' /\
    lives g' <= lives g /\
    (gameOver g = false -> 0 < lives g ->
     (gameOver g' = true <-> lives g' <= 0)).
Proof.
  intros Hp Hs. destruct (running g) eqn:Hr.
  - exists (frame g (movePlayer (moveRef g) (viewWidth g) p0)).
    split; [now apply (animate_frame g p0 sc)|].
    rewrite lives_frame, gameOver_frame.
    set (n := playerHits g _). split; [lia|].
    intros -> Hpos. rewrite orb_false_l, andb_true_iff, negb_true_iff.
    rewrite Nat.eqb_neq, Z.leb_le. lia.
  - exists g. unfold animate. rewrite Hr. cbn [negb].
    split; [reflexivity|]. split; [lia|].
    intros -> Hpos. split; [discriminate|lia].
Qed.

Lemma lives_nonincreasing_gameOver_exact_witness :
  exists g',
    animate lastLife = Some g' /\
    lives g' <= lives lastLife /\
    (gameOver g' = true <-> lives g' <= 0).
Proof.
  destruct (lives_nonincreasing_gameOver_exact lastLife (mkMesh 0 (-4))
              (mkScene 0x0a0a2a) eq_refl eq_refl)
    as (g' & Ha & Hle & Hgo).
  exists g'. split; [exact Ha|]. split; [exact Hle|].
  exact (Hgo eq_refl eq_refl).
Defined.

(** C10.  The stored count is not clamped: the updater of [setLives] takes
    one life whatever the count is, and raises [gameOver] when it finds the
    count at 1 or below; a frame takes one life per hit, so two hits in a
    frame that starts with one life end it with [lives = -1] and [gameOver]
    on. *)
Theorem lives_not_clamped :
  (forall g, lives (loseLife g) = lives g - 1 /\
             gameOver (loseLife g) = gameOver g || (lives g <=? 1)) /\
  (forall g p0 sc,
      running g = true -> playerRef g = Some p0 -> sceneRef g = Some sc ->
      let p := movePlayer (moveRef g) (viewWidth g) p0 in
      exists g',
        animate g = Some g' /\
        lives g' = lives g - Z.of_nat (playerHits g p) /\
        (lives g = 1 -> playerHits g p = 2%nat ->
         lives g' = -1 /\ gameOver g' = true)).
Proof.
  split.
  - intros g. split; [apply lives_loseLife|apply gameOver_loseLife].
  - intros g p0 sc Hr Hp Hs p. exists (frame g p).
    split; [now apply (animate_frame g p0 sc)|].
    rewrite lives_frame, gameOver_frame. split; [reflexivity|].
    intros -> ->. split; [reflexivity|]. apply orb_true_r.
Qed.

Lemma lives_not_clamped_witness :
  exists g',
    animate lastLife = Some g' /\
    lives g' = lives lastLife - 2 /\
    lives g' = -1 /\ gameOver g' = true.
Proof.
  destruct (proj2 lives_not_clamped lastLife (mkMesh 0 (-4))
              (mkScene 0x0a0a2a) eq_refl eq_refl eq_refl)
    as (g' & Ha & Hl & Hgo).
  exists g'. split; [exact Ha|]. split; [exact Hl|].
  exact (Hgo eq_refl eq_refl).
Defined.

(** C4.  Hits on the player in one frame are not merged: the frame takes one
    life per enemy bullet that reaches the player and one per enemy that
    rams.  With two enemy bullets on the player, nothing else hitting, and
    three lives, the frame ends with one life and still in play. *)
Theorem simultaneous_hits_all_count (g : Game) (p0 : Mesh) (sc : Scene) :
  running g = true -> playerRef g = Some p0 -> sceneRef g = Some sc ->
  let p := movePlayer (moveRef g) (viewWidth g) p0 in
  let gb := updateBullets (set_player p g) in
  exists g',
    animate g = Some g' /\
    lives g' = lives g
               - Z.of_nat (countIf (enemyBulletStrikes p) (enemyBulletsRef g))
               - Z.of_nat (countIf (enemyRams p) (enemiesRef gb)) /\
    (lives g = 3 -> gameOver g = false ->
     countIf (enemyBulletStrikes p) (enemyBulletsRef g) = 2%nat ->
     countIf (enemyRams p) (enemiesRef gb) = 0%nat ->
     lives g' = 1 /\ gameOver g' = false).
Proof.
  intros Hr Hp Hs p gb. exists (frame g p).
  split; [now apply (animate_frame g p0 sc)|].
  rewrite lives_frame, gameOver_frame. unfold playerHits. fold gb.
  split; [lia|].
  intros -> -> -> ->. split; reflexivity.
Qed.

Lemma simultaneous_hits_all_count_witness :
  exists g',
    animate twoShots = Some g' /\ lives g' = 1 /\ gameOver g' = false.
Proof.
  destruct (simultaneous_hits_all_count twoShots (mkMesh 0 (-4))
              (mkScene 0x0a0a2a) eq_refl eq_refl eq_refl)
    as (g' & Ha & _ & H).
  exists g'. split; [exact Ha|].
  exact (H eq_refl eq_refl eq_refl eq_refl).
Defined.

(** * Score *)

Lemma score_updateEnemies p g : score (updateEnemies p g) = score g.
Proof.
  rewrite updateEnemies_spec. cbn [set_enemies score].
  now destruct (besideHits_fields _ _
    (iter_playerHit_beside p (countIf (enemyRams p) (enemiesRef g)) g))
    as (-> & _).
Qed.

(** C2.  In a frame, [score] grows by one for each enemy the loop over the
    player's bullets removes ([destroyed], each of which also leaves its
    marker), and by nothing else: the rest of the frame, where enemies are
    removed for ramming the player or for leaving through the bottom, keeps
    the score.  So [score] never decreases. *)
Theorem score_counts_destroyed_enemies (g : Game) (p0 : Mesh) (sc : Scene) :
  running g = true -> playerRef g = Some p0 -> sceneRef g = Some sc ->
  let p := movePlayer (moveRef g) (viewWidth g) p0 in
  let gb := updateBullets (set_player p g) in
  exists g' destroyed,
    animate g = Some g' /\
    enemiesRef g ≡ₚ destroyed ++ enemiesRef gb /\
    explosions gb = explosions g ++ (marker <$> destroyed) /\
    score g' = score g + Z.of_nat (length destroyed) /\
    score g <= score g' /\
    score (updateEnemies p (updateEnemyBullets p gb)) = score gb.
Proof.
  intros Hr Hp Hs p gb.
  destruct (updateBullets_spec (set_player p g))
    as (d & _ & _ & Hperm & _ & Hex & Hsc & _).
  fold gb in Hperm, Hex, Hsc.
  exists (frame g p), d.
  split; [now apply (animate_frame g p0 sc)|].
  destruct (frame_beside g p) as (-> & _). fold gb.
  split; [exact Hperm|]. split; [exact Hex|].
  split; [rewrite Hsc; now destruct g|].
  split; [rewrite Hsc; destruct g; cbn; lia|].
  rewrite score_updateEnemies, updateEnemyBullets_spec.
  cbn [set_enemyBullets score].
  now destruct (besideHits_fields _ _
    (iter_playerHit_beside p
       (countIf (enemyBulletStrikes p) (enemyBulletsRef gb)) gb))
    as (-> & _).
Qed.

Lemma score_counts_destroyed_enemies_witness :
  exists g',
    animate oneKill = Some g' /\
    enemiesRef g' = [] /\
    score g' = score oneKill + 1.
Proof.
  destruct (score_counts_destroyed_enemies oneKill (mkMesh 0 (-4))
              (mkScene 0x0a0a2a) eq_refl eq_refl eq_refl)
    as (g' & d & Ha & Hperm & _ & Hsc & _).
  exists g'. split; [exact Ha|].
  assert (Hg : g' = frame oneKill (mkMesh 0 (-4))).
  { vm_compute in Ha. injection Ha as <-. vm_compute. reflexivity. }
  split; [rewrite Hg; vm_compute; reflexivity|].
  rewrite Hg. vm_compute. reflexivity.
Defined.

(** * A bullet meets an enemy *)

(** C3, as stated, fails, in two ways.  The bullet and the enemy of
    [lateBullet] overlap by the predicate, before the bullet advances and
    after, yet the frame removes the bullet alone (line 550 comes before the
    test): the enemy stays, only moved down, no marker is made and the score
    is kept.  And the two bullets of [twoOnOne] both overlap its one enemy,
    before they advance and after, and neither passes the upper limit, yet
    the frame removes the enemy with the second bullet alone: the first one,
    whose turn comes later, flies on. *)
Lemma overlap_without_kill :
  (bulletHitsEnemy (mkMesh 0 (57 # 10)) (mkMesh 0 (545 # 100)) = true /\
   bulletHitsEnemy (advanceBullet (mkMesh 0 (57 # 10))) (mkMesh 0 (545 # 100))
   = true /\
   exists g',
     animate lateBullet = Some g' /\
     bulletsRef g' = [] /\
     enemiesRef g' = [advanceEnemy (mkMesh 0 (545 # 100))] /\
     explosions g' = [] /\
     score g' = score lateBullet) /\
  (bulletsRef twoOnOne !! 0%nat = Some (mkMesh 0 (49 # 10)) /\
   enemiesRef twoOnOne = [mkMesh 0 5] /\
   bulletHitsEnemy (mkMesh 0 (49 # 10)) (mkMesh 0 5) = true /\
   bulletHitsEnemy (advanceBullet (mkMesh 0 (49 # 10))) (mkMesh 0 5) = true /\
   bulletGone (advanceBullet (mkMesh 0 (49 # 10))) = false /\
   exists g',
     animate twoOnOne = Some g' /\
     bulletsRef g' = [advanceBullet (mkMesh 0 (49 # 10))] /\
     enemiesRef g' = [] /\
     score g' = score twoOnOne + 1).
Proof.
  split.
  - split; [reflexivity|]. split; [reflexivity|].
    eexists. split; [vm_compute; reflexivity|].
    repeat split; reflexivity.
  - do 5 (split; [reflexivity|]).
    eexists. split; [vm_compute; reflexivity|].
    repeat split; reflexivity.
Qed.

(** C3, amended.  In a frame the loop takes the bullets from the last to the
    first.  When it reaches the bullet at index [i], the bullet is as the
    frame found it, and the enemies are those that the bullets above it have
    not destroyed ([bulletsTurn]).  In that turn:
    - if the bullet, once advanced, is past the upper limit, it is removed
      and nothing else happens;
    - otherwise, if it overlaps some enemy that is still there, then the
      overlapping enemy of highest index (the first met, the scan going
      down) is removed together with the bullet, one marker with countdown
      0.35 is pushed at that enemy's position, and the score grows by one;
      no other enemy is touched in that turn.  When the loop ends, and so
      when the frame ends, the bullet is not in the array, the enemy is not
      among the enemies, the marker is among the explosions and the point is
      in the score.
    Over the whole loop, every enemy removed costs a bullet of its own. *)
Theorem bullet_destroys_first_overlapping_enemy
        (g0 : Game) (p0 : Mesh) (sc : Scene) (i : nat) (b0 : Mesh) :
  running g0 = true -> playerRef g0 = Some p0 -> sceneRef g0 = Some sc ->
  bulletsRef g0 !! i = Some b0 ->
  let g := set_player (movePlayer (moveRef g0) (viewWidth g0) p0) g0 in
  let T := bulletsTurn i g in
  let b := advanceBullet b0 in
  (exists g',
      animate g0 = Some g' /\
      bulletsRef g' = bulletsRef (updateBullets g) /\
      score g' = score (updateBullets g)) /\
  updateBullets g = forDown i bulletStep (bulletStep i T) /\
  bulletsRef T !! i = Some b0 /\
  enemiesRef T `sublist_of` enemiesRef g0 /\
  (bulletGone b = true ->
   bulletStep i T = set_bullets (delete i (bulletsRef T)) T) /\
  (bulletGone b = false ->
   forall k ek,
     enemiesRef T !! k = Some ek -> bulletHitsEnemy b ek = true ->
     exists j e,
       (k <= j)%nat /\
       enemiesRef T !! j = Some e /\
       bulletHitsEnemy b e = true /\
       (forall j' e', (j < j')%nat -> enemiesRef T !! j' = Some e' ->
                      bulletHitsEnemy b e' = false) /\
       bulletStep i T
       = setScore (fun s => s + 1)
           (set_enemies (delete j (enemiesRef T))
              (set_bullets (delete i (bulletsRef T))
                 (push_explosion (mkExplosion e (35 # 100)) T))) /\
       (exists rest,
           bulletsRef (updateBullets g)
           = rest ++ drop (S i) (bulletsRef T) /\
           rest `sublist_of` (advanceBullet <$> take i (bulletsRef g0))) /\
       enemiesRef (updateBullets g) `sublist_of` delete j (enemiesRef T) /\
       mkExplosion e (35 # 100) ∈ explosions (updateBullets g) /\
       score T + 1 <= score (updateBullets g)) /\
  (length (bulletsRef (updateBullets g))
   + (length (enemiesRef g0) - length (enemiesRef (updateBullets g)))
   <= length (bulletsRef g0))%nat.
Proof.
  intros Hr Hp Hs Hb g T b.
  assert (Hbg : bulletsRef g !! i = Some b0) by exact Hb.
  destruct (bulletsTurn_spec i g b0 Hbg) as (Hloop & HbT & _ & He).
  fold T in Hloop, HbT, He.
  split.
  { exists (frame g0 (movePlayer (moveRef g0) (viewWidth g0) p0)).
    split; [now apply (animate_frame g0 p0 sc)|].
    destruct (frame_beside g0 (movePlayer (moveRef g0) (viewWidth g0) p0))
      as (Hsc & Hbs & _).
    split; [exact Hbs|exact Hsc]. }
  split; [exact Hloop|]. split; [exact HbT|]. split; [exact He|].
  split; [|split].
  - intros Hgone.
    rewrite (bulletStep_outcome i T b0 HbT). unfold bulletOutcome.
    fold b. now rewrite Hgone.
  - intros Hgone k ek Hk Hit.
    assert (Hout : exists j e,
               bulletOutcome b0 (enemiesRef T) = Kills j e /\
               (k <= j)%nat /\ enemiesRef T !! j = Some e /\
               bulletHitsEnemy b e = true /\
               (forall j' e', (j < j')%nat -> enemiesRef T !! j' = Some e' ->
                              bulletHitsEnemy b e' = false)).
    { unfold bulletOutcome. fold b. rewrite Hgone.
      assert (Hkn : (k < length (enemiesRef T))%nat)
        by (eapply lookup_lt_Some; eassumption).
      destruct (scanEnemies _ _ _) as [[j e]|] eqn:Scan.
      - apply scanEnemies_Some in Scan as (Hj & Hej & Hh & Hrest).
        exists j, e. split; [reflexivity|].
        split.
        { destruct (Nat.le_gt_cases k j) as [|Hlt]; [assumption|].
          rewrite (Hrest k ek) in Hit; [discriminate|lia|assumption]. }
        split; [assumption|]. split; [assumption|].
        intros j' e' Hj' He'. apply (Hrest j'); [|assumption].
        split; [assumption|]. eapply lookup_lt_Some; eassumption.
      - pose proof (scanEnemies_None _ _ _ Scan k ek Hkn Hk) as Hnone.
        rewrite Hnone in Hit. discriminate. }
    destruct Hout as (j & e & Hout & Hkj & Hej & Hh & Hfirst).
    exists j, e.
    split; [exact Hkj|]. split; [exact Hej|]. split; [exact Hh|].
    split; [exact Hfirst|].
    split; [now rewrite (bulletStep_outcome i T b0 HbT), Hout|].
    exact (bullet_kills_on g i b0 j e Hbg Hout).
  - destruct (updateBullets_spec g) as (d & _ & Hlen & Hperm & _).
    apply Permutation_length in Hperm. rewrite length_app in Hperm.
    change (enemiesRef g) with (enemiesRef g0) in Hperm.
    change (bulletsRef g) with (bulletsRef g0) in Hlen. lia.
Qed.

Lemma bullet_destroys_first_overlapping_enemy_witness :
  exists g',
    animate twoOnOne = Some g' /\
    bulletsRef g' = bulletsRef (updateBullets twoOnOne) /\
    bulletsRef (updateBullets twoOnOne)
    = [advanceBullet (mkMesh 0 (49 # 10))] /\
    enemiesRef (updateBullets twoOnOne) = [] /\
    marker (mkMesh 0 5) ∈ explosions (updateBullets twoOnOne) /\
    1 <= score (updateBullets twoOnOne).
Proof.
  destruct (bullet_destroys_first_overlapping_enemy twoOnOne (mkMesh 0 (-4))
              (mkScene 0x0a0a2a) 1%nat (mkMesh (1 # 10) (49 # 10))
              eq_refl eq_refl eq_refl eq_refl)
    as ((g' & Ha & Hbs & _) & _ & _ & _ & _ & Hkill & _).
  destruct (Hkill eq_refl 0%nat (mkMesh 0 5) eq_refl eq_refl)
    as (j & e & _ & Hj & _ & _ & _ & _ & Hes & Hm & Hsc).
  assert (Hje : j = 0%nat /\ e = mkMesh 0 5).
  { destruct j as [|j]; [|discriminate Hj].
    injection Hj as <-. split; reflexivity. }
  destruct Hje as [-> ->].
  exists g'. split; [exact Ha|]. split; [exact Hbs|].
  split; [vm_compute; reflexivity|].
  split; [apply sublist_nil_r; exact Hes|].
  split; [exact Hm|exact Hsc].
Defined.

(** * The player stays in the view *)

Lemma movePlayer_bounds (m : Move) (vw : Q) (p : Mesh) :
  let q := movePlayer m vw p in
  (- vw / 2 + PLAYER_WIDTH / 2 <= pos_x q)%Q /\
  ((PLAYER_WIDTH <= vw)%Q -> (pos_x q <= vw / 2 - PLAYER_WIDTH / 2)%Q) /\
  (- viewHeight / 2 + PLAYER_HEIGHT / 2 <= pos_y q)%Q /\
  (pos_y q <= viewHeight / 2 - PLAYER_HEIGHT / 2)%Q.
Proof.
  unfold movePlayer. cbn [pos_x pos_y].
  split; [apply Q.le_max_l|].
  split.
  - intros Hw. apply Q.max_lub; [|apply Q.le_min_l].
    unfold PLAYER_WIDTH, Qdiv in *. change (/ 2)%Q with (1 # 2)%Q. lra.
  - split; [apply Q.le_max_l|].
    apply Q.max_lub; [|apply Q.le_min_l].
    vm_compute. discriminate.
Qed.

(** C5, as stated, fails: in [narrow] the clamp leaves the player at
    [x = 0.05], to the right of [rightBound = -0.05], without any key held. *)
Lemma player_right_of_rightBound :
  exists g' p',
    animate narrow = Some g' /\ playerRef g' = Some p' /\
    ~ (pos_x p' <= viewWidth narrow / 2 - PLAYER_WIDTH / 2)%Q.
Proof.
  eexists. eexists. split; [vm_compute; reflexivity|].
  split; [reflexivity|]. vm_compute. intros H. apply H. reflexivity.
Qed.

(** C5, amended.  After the move and clamp of a frame, whatever keys are
    held, the player has [leftBound <= x], [bottomBound <= y <= topBound],
    and, when the view is at least as wide as the player, [x <= rightBound];
    the rest of the frame does not move the player. *)
Theorem player_clamped_into_view (g : Game) (p0 : Mesh) (sc : Scene) :
  running g = true -> playerRef g = Some p0 -> sceneRef g = Some sc ->
  exists g' p',
    animate g = Some g' /\ playerRef g' = Some p' /\
    p' = movePlayer (moveRef g) (viewWidth g) p0 /\
    (- viewWidth g / 2 + PLAYER_WIDTH / 2 <= pos_x p')%Q /\
    ((PLAYER_WIDTH <= viewWidth g)%Q ->
     (pos_x p' <= viewWidth g / 2 - PLAYER_WIDTH / 2)%Q) /\
    (- viewHeight / 2 + PLAYER_HEIGHT / 2 <= pos_y p')%Q /\
    (pos_y p' <= viewHeight / 2 - PLAYER_HEIGHT / 2)%Q.
Proof.
  intros Hr Hp Hs.
  exists (frame g (movePlayer (moveRef g) (viewWidth g) p0)).
  exists (movePlayer (moveRef g) (viewWidth g) p0).
  split; [now apply (animate_frame g p0 sc)|].
  split; [apply frame_beside|]. split; [reflexivity|].
  apply movePlayer_bounds.
Qed.

Lemma player_clamped_into_view_witness :
  exists g' p',
    animate allKeys = Some g' /\ playerRef g' = Some p' /\
    (- viewWidth allKeys / 2 + PLAYER_WIDTH / 2 <= pos_x p')%Q /\
    (pos_x p' <= viewWidth allKeys / 2 - PLAYER_WIDTH / 2)%Q /\
    (- viewHeight / 2 + PLAYER_HEIGHT / 2 <= pos_y p')%Q /\
    (pos_y p' <= viewHeight / 2 - PLAYER_HEIGHT / 2)%Q.
Proof.
  destruct (player_clamped_into_view allKeys (mkMesh (77 # 12) (45 # 10))
              (mkScene 0x0a0a2a) eq_refl eq_refl eq_refl)
    as (g' & p' & Ha & Hp & _ & Hl & Hr & Hb & Ht).
  exists g', p'. split; [exact Ha|]. split; [exact Hp|].
  split; [exact Hl|]. split; [|split; [exact Hb|exact Ht]].
  apply Hr. vm_compute. discriminate.
Defined.

(** * Firing *)

(** The three bullets of [shoot], for the player at [p]. *)
Lemma shoot_appends g p sc :
  sceneRef g = Some sc -> playerRef g = Some p ->
  exists l r c,
    shoot g = set_bullets (bulletsRef g ++ [l; r; c]) g /\
    (pos_x l == pos_x p - (575 # 1000))%Q /\
    (pos_y l == pos_y p - (2 # 10))%Q /\
    (pos_x r == pos_x p + (575 # 1000))%Q /\
    (pos_y r == pos_y p - (2 # 10))%Q /\
    (pos_x c == pos_x p)%Q /\
    (pos_y c == pos_y p + (9 # 10))%Q.
Proof.
  intros Hs Hp. unfold shoot. rewrite Hs, Hp.
  do 3 eexists. split.
  - rewrite <- !app_assoc. cbn [app]. reflexivity.
  - cbn [pos_x pos_y].
    unfold PLAYER_WIDTH, PLAYER_HEIGHT, BULLET_HEIGHT, Qdiv.
    change (/ 2)%Q with (1 # 2)%Q.
    repeat split; lra.
Qed.

(** A press of the space bar, whatever else the key event says, is one call
    of [shoot]: three more bullets. *)
Lemma space_bar_fires_once e g p sc :
  sceneRef g = Some sc -> playerRef g = Some p ->
  (String.eqb (key e) " " || String.eqb (code e) "Space")%bool = true ->
  length (bulletsRef (onKeyDown e g)) = (length (bulletsRef g) + 3)%nat.
Proof.
  intros Hs Hp Hkey. unfold onKeyDown. rewrite Hkey.
  match goal with |- context [shoot ?s] =>
    destruct (shoot_appends s p sc Hs Hp) as (l & r & c & -> & _)
  end.
  cbn [set_bullets set_move bulletsRef]. rewrite length_app. reflexivity.
Qed.

(** C6.  [shoot] appends exactly three bullets to the array of the player's
    bullets and changes nothing else: one at the left cannon
    ([x - 0.575], [y - 0.2]), one at the right cannon ([x + 0.575],
    [y - 0.2]) and one at the nose ([x], [y + 0.9]), for the player at
    ([x], [y]).  Bullets carry no speed of their own, and all advance alike:
    in every frame the bullets that are left are bullets of the array, in
    their order, each advanced by the one constant [BULLET_SPEED], straight
    up; a bullet that stays under the upper limit and reaches no enemy is
    left, so advanced; and when that holds of all the bullets, the array
    after the frame is the array before it with every bullet advanced. *)
Theorem shoot_adds_three_bullets :
  (forall g p sc,
      sceneRef g = Some sc -> playerRef g = Some p ->
      exists l r c,
        shoot g = set_bullets (bulletsRef g ++ [l; r; c]) g /\
        (pos_x l == pos_x p - (575 # 1000))%Q /\
        (pos_y l == pos_y p - (2 # 10))%Q /\
        (pos_x r == pos_x p + (575 # 1000))%Q /\
        (pos_y r == pos_y p - (2 # 10))%Q /\
        (pos_x c == pos_x p)%Q /\
        (pos_y c == pos_y p + (9 # 10))%Q) /\
  (forall g p0 sc,
      running g = true -> playerRef g = Some p0 -> sceneRef g = Some sc ->
      exists g',
        animate g = Some g' /\
        bulletsRef g' `sublist_of` (advanceBullet <$> bulletsRef g) /\
        (forall i b0,
            bulletsRef g !! i = Some b0 ->
            bulletFlies (enemiesRef g) b0 = true ->
            advanceBullet b0 ∈ bulletsRef g') /\
        (Forall (fun b0 => bulletFlies (enemiesRef g) b0 = true)
                (bulletsRef g) ->
         bulletsRef g' = advanceBullet <$> bulletsRef g)) /\
  (forall b,
      pos_x (advanceBullet b) = pos_x b /\
      pos_y (advanceBullet b) = (pos_y b + BULLET_SPEED)%Q).
Proof.
  split; [exact shoot_appends|split].
  - intros g p0 sc Hr Hp Hs.
    set (p := movePlayer (moveRef g) (viewWidth g) p0).
    exists (frame g p).
    split; [now apply (animate_frame g p0 sc)|].
    destruct (frame_beside g p) as (_ & -> & _).
    split; [|split].
    + destruct (updateBullets_spec (set_player p g)) as (d & Hsub & _).
      exact Hsub.
    + intros i b0 Hb Hfly.
      destruct (bullet_flies_on (set_player p g) i b0 Hb Hfly)
        as (rest & -> & _).
      rewrite elem_of_app, elem_of_cons. auto.
    + intros Hall.
      now rewrite (updateBullets_all_fly (set_player p g)).
  - intros b. split; reflexivity.
Qed.

Lemma shoot_adds_three_bullets_witness :
  exists l r c g',
    shoot fresh = set_bullets [l; r; c] fresh /\
    (pos_x l == - (575 # 1000))%Q /\ (pos_y l == - (42 # 10))%Q /\
    (pos_x r == 575 # 1000)%Q /\ (pos_y r == - (42 # 10))%Q /\
    (pos_x c == 0)%Q /\ (pos_y c == - (31 # 10))%Q /\
    animate (shoot fresh) = Some g' /\
    bulletsRef g' = [advanceBullet l; advanceBullet r; advanceBullet c].
Proof.
  destruct (proj1 shoot_adds_three_bullets fresh (mkMesh 0 (-4))
              (mkScene 0x0a0a2a) eq_refl eq_refl)
    as (l & r & c & Hshoot & Hlx & Hly & Hrx & Hry & Hcx & Hcy).
  destruct (proj1 (proj2 shoot_adds_three_bullets) (shoot fresh)
              (mkMesh 0 (-4)) (mkScene 0x0a0a2a) eq_refl eq_refl eq_refl)
    as (g' & Ha & _ & _ & Hall).
  exists l, r, c, g'. split; [exact Hshoot|].
  cbn [pos_x pos_y] in *.
  do 6 (split; [lra|]).
  split; [exact Ha|].
  rewrite Hall.
  - rewrite Hshoot. reflexivity.
  - rewrite Hshoot. cbn [set_bullets bulletsRef enemiesRef].
    unfold shoot in Hshoot. cbn in Hshoot. injection Hshoot as <- <- <-.
    repeat constructor.
Defined.

(** * Enemy fire *)

(** ** The index drawn by [Math.floor(Math.random() * enemies.length)] *)

(** What the rounding of a [P] of more than 53 bits does: [P] is
    [q * 2 ^ sh + rem] with a 53-bit [q], and becomes [q * 2 ^ sh] or
    [(q + 1) * 2 ^ sh], whichever is nearer. *)
Lemma round53_cases (P : Z) :
  2 ^ 53 <= P ->
  exists sh q rem,
    1 <= sh /\ P = q * 2 ^ sh + rem /\ 0 <= rem < 2 ^ sh /\
    2 ^ 52 <= q < 2 ^ 53 /\
    ((round53 P = q * 2 ^ sh /\ 2 * rem <= 2 ^ sh) \/
     (round53 P = (q + 1) * 2 ^ sh /\ 2 ^ sh <= 2 * rem)).
Proof.
  intros HP. unfold round53.
  destruct (Z.ltb_spec P (2 ^ 53)) as [|_]; [lia|].
  assert (HP0 : 0 < P) by lia.
  destruct (Z.log2_spec P HP0) as [Hlo Hhi].
  assert (HL : 53 <= Z.log2 P).
  { apply Z.log2_le_pow2; lia. }
  set (sh := Z.log2 P - 52) in *.
  assert (Hsh : 1 <= sh) by (unfold sh; lia).
  assert (Hpow : 0 < 2 ^ sh) by (apply Z.pow_pos_nonneg; lia).
  assert (HL1 : 2 ^ Z.log2 P = 2 ^ 52 * 2 ^ sh).
  { rewrite <- Z.pow_add_r by lia. f_equal. unfold sh. lia. }
  assert (HL2 : 2 ^ Z.succ (Z.log2 P) = 2 ^ 53 * 2 ^ sh).
  { rewrite <- Z.pow_add_r by lia. f_equal. unfold sh. lia. }
  assert (Hhalf : 2 ^ sh = 2 * 2 ^ (sh - 1)).
  { rewrite <- (Z.pow_succ_r 2 (sh - 1)) by lia. f_equal. lia. }
  pose proof (Z.div_mod P (2 ^ sh) ltac:(lia)) as Hdm.
  pose proof (Z.mod_pos_bound P (2 ^ sh) Hpow) as Hrem.
  set (q := P / 2 ^ sh) in *. set (rem := P mod 2 ^ sh) in *.
  exists sh, q, rem.
  split; [assumption|]. split; [lia|]. split; [assumption|].
  assert (Hq : 2 ^ 52 <= q < 2 ^ 53) by nia.
  split; [assumption|].
  destruct (Z.ltb_spec rem (2 ^ (sh - 1))); [left; split; [reflexivity|lia]|].
  destruct (Z.ltb_spec (2 ^ (sh - 1)) rem); [right; split; [reflexivity|lia]|].
  destruct (Z.even q); [left|right]; (split; [reflexivity|lia]).
Qed.

Lemma round53_small (P : Z) : P < 2 ^ 53 -> round53 P = P.
Proof.
  intros H. unfold round53. now destruct (Z.ltb_spec P (2 ^ 53)); [|lia].
Qed.

(** Rounding moves a number by at most one part in [2 ^ 53]. *)
Lemma round53_near (P : Z) :
  0 <= P -> round53 P * 2 ^ 53 <= P * (2 ^ 53 + 1).
Proof.
  intros H0. destruct (Z.lt_ge_cases P (2 ^ 53)) as [H|H].
  - rewrite round53_small by assumption. nia.
  - destruct (round53_cases P H)
      as (sh & q & rem & Hsh & HP & Hrem & Hq & [[-> Hr]| [-> Hr]]).
    + nia.
    + assert (0 < 2 ^ sh) by (apply Z.pow_pos_nonneg; lia).
      set (S := 2 ^ sh) in *. clearbody S.
      change (2 ^ 53) with 9007199254740992 in *.
      change (2 ^ 52) with 4503599627370496 in *. nia.
Qed.

Lemma pow2_split (a b : Z) : 0 <= a <= b -> 2 ^ b = 2 ^ (b - a) * 2 ^ a.
Proof. intros H. rewrite <- Z.pow_add_r by lia. f_equal. lia. Qed.

(** Rounding does not cross a number that needs no rounding: such a number
    below [P] is below the rounded [P] ... *)
Lemma round53_ge_multiple (P k t : Z) :
  0 <= k < 2 ^ 53 -> 0 <= t -> k * 2 ^ t <= P -> k * 2 ^ t <= round53 P.
Proof.
  intros Hk Ht Hle. destruct (Z.lt_ge_cases P (2 ^ 53)) as [H|H].
  - now rewrite round53_small.
  - destruct (round53_cases P H)
      as (sh & q & rem & Hsh & HP & Hrem & Hq & Hcase).
    assert (HS : 0 < 2 ^ sh) by (apply Z.pow_pos_nonneg; lia).
    assert (HT : 0 < 2 ^ t) by (apply Z.pow_pos_nonneg; lia).
    assert (Hgoal : k * 2 ^ t <= q * 2 ^ sh).
    { destruct (Z.le_gt_cases sh t) as [Hst|Hst].
      - rewrite (pow2_split sh t) in * by lia.
        assert (0 < 2 ^ (t - sh)) by (apply Z.pow_pos_nonneg; lia).
        set (D := 2 ^ (t - sh)) in *. set (S := 2 ^ sh) in *.
        clearbody D S.
        assert (k * D < q + 1) by (apply (Z.mul_lt_mono_pos_r S); lia).
        assert (k * D * S <= q * S) by (apply Z.mul_le_mono_nonneg_r; lia).
        lia.
      - rewrite (pow2_split t sh) in * by lia.
        assert (2 <= 2 ^ (sh - t)).
        { change 2 with (2 ^ 1) at 1. apply Z.pow_le_mono_r; lia. }
        set (D := 2 ^ (sh - t)) in *. set (T := 2 ^ t) in *.
        clearbody D T.
        change (2 ^ 53) with (2 * 2 ^ 52) in *.
        assert (2 ^ 52 * 2 <= q * D) by (apply Z.mul_le_mono_nonneg; lia).
        rewrite Z.mul_assoc. apply Z.mul_le_mono_nonneg_r; lia. }
    destruct Hcase as [[-> _]|[-> _]]; nia.
Qed.

(** ... and such a number above [P] is above the rounded [P]. *)
Lemma round53_le_multiple (P k t : Z) :
  0 <= k <= 2 ^ 53 -> 0 <= t -> 0 <= P <= k * 2 ^ t -> round53 P <= k * 2 ^ t.
Proof.
  intros Hk Ht Hle. destruct (Z.lt_ge_cases P (2 ^ 53)) as [H|H].
  - now rewrite round53_small.
  - destruct (round53_cases P H)
      as (sh & q & rem & Hsh & HP & Hrem & Hq & Hcase).
    assert (HS : 0 < 2 ^ sh) by (apply Z.pow_pos_nonneg; lia).
    assert (HT : 0 < 2 ^ t) by (apply Z.pow_pos_nonneg; lia).
    destruct Hcase as [[-> _]|[-> Hr]]; [nia|].
    destruct (Z.le_gt_cases sh t) as [Hst|Hst].
    + rewrite (pow2_split sh t) in * by lia.
      assert (0 < 2 ^ (t - sh)) by (apply Z.pow_pos_nonneg; lia).
      set (D := 2 ^ (t - sh)) in *. set (S := 2 ^ sh) in *.
      clearbody D S.
      assert (q < k * D) by (apply (Z.mul_lt_mono_pos_r S); lia).
      assert ((q + 1) * S <= k * D * S) by (apply Z.mul_le_mono_nonneg_r; lia).
      lia.
    + rewrite (pow2_split t sh) in * by lia.
      assert (2 <= 2 ^ (sh - t)).
      { change 2 with (2 ^ 1) at 1. apply Z.pow_le_mono_r; lia. }
      set (D := 2 ^ (sh - t)) in *. set (T := 2 ^ t) in *.
      clearbody D T.
      assert (2 ^ 52 * 2 <= q * D) by (apply Z.mul_le_mono_nonneg; lia).
      assert (k * T <= q * D * T) by (apply Z.mul_le_mono_nonneg_r; lia).
      lia.
Qed.

Lemma round53_nonneg (P : Z) : 0 <= P -> 0 <= round53 P.
Proof.
  intros H. apply (round53_ge_multiple P 0 0); [split; [lia|reflexivity]|lia|lia].
Qed.

(** The index is always inside the array. *)
Lemma randomIndex_in_range (r : Random) (n : nat) :
  validRandom r -> (0 < n)%nat -> (randomIndex r n < n)%nat.
Proof.
  intros [[Hm0 Hm1] Ht] Hn. unfold randomIndex.
  set (P := mantissa r * Z.of_nat n).
  assert (HP : 0 <= P) by (unfold P; nia).
  pose proof (round53_near P HP) as Hnear.
  pose proof (round53_nonneg P HP) as H0.
  assert (HT : 2 ^ 53 <= 2 ^ exponent r) by (apply Z.pow_le_mono_r; lia).
  assert (Hlt : round53 P < Z.of_nat n * 2 ^ exponent r).
  { unfold P in *. set (T := 2 ^ exponent r) in *. clearbody T.
    change (2 ^ 53) with 9007199254740992 in *. nia. }
  assert (round53 P / 2 ^ exponent r < Z.of_nat n).
  { apply Z.div_lt_upper_bound; [lia|]. lia. }
  assert (0 <= round53 P / 2 ^ exponent r) by (apply Z.div_pos; lia).
  lia.
Qed.

Lemma Qfloor_eq (x : Q) (z : Z) :
  Qfloor x = z <-> (inject_Z z <= x /\ x < inject_Z (z + 1))%Q.
Proof.
  split.
  - intros <-. split; [apply Qfloor_le|apply Qlt_floor].
  - intros [Hle Hlt].
    assert (H1 : z <= Qfloor x).
    { rewrite <- (Qfloor_Z z). now apply Qfloor_resp_le. }
    assert (H2 : Qfloor x < z + 1).
    { rewrite Zlt_Qlt. eapply Qle_lt_trans; [apply Qfloor_le|exact Hlt]. }
    lia.
Qed.

(** [Math.floor] of the exact product of the draw and the length. *)
Lemma exact_floor (r : Random) (n : nat) :
  validRandom r ->
  Qfloor (randomValue r * inject_Z (Z.of_nat n))
  = (mantissa r * Z.of_nat n) / 2 ^ exponent r.
Proof.
  intros [[Hm0 Hm1] Ht]. unfold randomValue.
  set (T := 2 ^ exponent r). set (M := mantissa r). set (N := Z.of_nat n).
  assert (HT : 0 < T) by (apply Z.pow_pos_nonneg; lia).
  assert (HTq : (0 < inject_Z T)%Q).
  { change 0%Q with (inject_Z 0). now rewrite <- Zlt_Qlt. }
  assert (Heq : (inject_Z M / inject_Z T * inject_Z N
                 == inject_Z (M * N) / inject_Z T)%Q).
  { rewrite inject_Z_mult. field. intros H. rewrite H in HTq.
    now apply Qlt_irrefl in HTq. }
  pose proof (Z.div_mod (M * N) T ltac:(lia)) as Hdm.
  pose proof (Z.mod_pos_bound (M * N) T HT) as Hrem.
  apply Qfloor_eq. rewrite Heq. split.
  - apply Qle_shift_div_l; [assumption|].
    rewrite <- inject_Z_mult, <- Zle_Qle. lia.
  - apply Qlt_shift_div_r; [assumption|].
    rewrite <- inject_Z_mult, <- Zlt_Qlt. lia.
Qed.

(** The index is the floor of the exact product, or one more when the
    double product is rounded up to the next integer. *)
Lemma randomIndex_near_floor (r : Random) (n : nat) :
  validRandom r -> Z.of_nat n <= 2 ^ 53 ->
  let k0 := (mantissa r * Z.of_nat n) / 2 ^ exponent r in
  k0 <= Z.of_nat (randomIndex r n) <= k0 + 1.
Proof.
  intros [[Hm0 Hm1] Ht] Hn k0. unfold randomIndex. fold k0.
  set (P := mantissa r * Z.of_nat n) in *.
  set (T := 2 ^ exponent r) in *.
  assert (HP : 0 <= P) by (unfold P; nia).
  assert (HT : 0 < T) by (apply Z.pow_pos_nonneg; lia).
  assert (HT53 : 2 ^ 53 <= T) by (apply Z.pow_le_mono_r; lia).
  pose proof (Z.div_mod P T ltac:(lia)) as Hdm.
  pose proof (Z.mod_pos_bound P T HT) as Hrem. fold k0 in Hdm.
  assert (Hk0 : 0 <= k0) by (apply Z.div_pos; lia).
  assert (Hk1 : k0 < 2 ^ 53).
  { apply Z.div_lt_upper_bound; [lia|].
    assert (P <= (2 ^ 53 - 1) * Z.of_nat n)
      by (apply Z.mul_le_mono_nonneg_r; lia).
    assert ((2 ^ 53 - 1) * Z.of_nat n <= (2 ^ 53 - 1) * 2 ^ 53)
      by (apply Z.mul_le_mono_nonneg_l; lia).
    assert (2 ^ 53 * 2 ^ 53 <= T * 2 ^ 53)
      by (apply Z.mul_le_mono_nonneg_r; lia).
    lia. }
  assert (Hlo : k0 * T <= round53 P)
    by (apply round53_ge_multiple; [lia|lia|lia]).
  assert (Hhi : round53 P <= (k0 + 1) * T)
    by (apply round53_le_multiple; [lia|lia|lia]).
  assert (k0 <= round53 P / T) by (apply Z.div_le_lower_bound; lia).
  assert (round53 P / T <= k0 + 1).
  { apply Z.div_le_upper_bound; [lia|]. lia. }
  lia.
Qed.

(** Every index of the array is the one selected for some draw. *)
Lemma randomIndex_onto (n k : nat) :
  (k < n)%nat -> Z.of_nat n < 2 ^ 32 ->
  let r := mkRandom ((Z.of_nat k * 2 ^ 53 + Z.of_nat n - 1) / Z.of_nat n) 53 in
  validRandom r /\ randomIndex r n = k.
Proof.
  intros Hk Hn r.
  set (N := Z.of_nat n) in *. set (K := Z.of_nat k) in *.
  assert (HK : 0 <= K < N) by (unfold K, N; lia).
  set (M := (K * 2 ^ 53 + N - 1) / N).
  pose proof (Z.div_mod (K * 2 ^ 53 + N - 1) N ltac:(lia)) as Hdm.
  pose proof (Z.mod_pos_bound (K * 2 ^ 53 + N - 1) N ltac:(lia)) as Hrem.
  fold M in Hdm.
  assert (HM0 : 0 <= M) by (apply Z.div_pos; nia).
  assert (HMlo : K * 2 ^ 53 <= M * N) by lia.
  assert (HMhi : M * N <= K * 2 ^ 53 + N - 1) by lia.
  assert (HM1 : M < 2 ^ 53).
  { apply Z.div_lt_upper_bound; [lia|].
    assert ((K + 1) * 2 ^ 53 <= N * 2 ^ 53)
      by (apply Z.mul_le_mono_nonneg_r; lia).
    change (2 ^ 32) with 4294967296 in *.
    change (2 ^ 53) with 9007199254740992 in *. lia. }
  split; [split; [exact (conj HM0 HM1)|cbn; lia]|].
  unfold randomIndex. cbn [mantissa exponent r]. fold M N.
  set (P := M * N) in *.
  assert (HP : 0 <= P) by lia.
  assert (Hlo : K * 2 ^ 53 <= round53 P).
  { apply round53_ge_multiple; [|lia|lia].
    change (2 ^ 32) with 4294967296 in *.
    change (2 ^ 53) with 9007199254740992 in *. lia. }
  pose proof (round53_near P HP) as Hnear.
  assert (Hhi : round53 P < (K + 1) * 2 ^ 53).
  { change (2 ^ 32) with 4294967296 in *.
    change (2 ^ 53) with 9007199254740992 in *. lia. }
  assert (round53 P / 2 ^ 53 = K).
  { symmetry. apply (Z.div_unique _ _ K (round53 P - K * 2 ^ 53)); lia. }
  unfold K in *. lia.
Qed.

(** C9, as stated, fails: the bullet is not put at the enemy's position.
    For the enemy of [oneEnemy], at height 3, it appears at height 2.25. *)
Lemma enemy_bullet_not_at_enemy :
  exists eb,
    enemyBulletsRef (enemyShootInterval drawZero oneEnemy) = [eb] /\
    enemiesRef oneEnemy = [mkMesh 0 3] /\
    (pos_y eb == 225 # 100)%Q /\
    ~ (pos_y eb == pos_y (mkMesh 0 3))%Q.
Proof.
  eexists. split; [vm_compute; reflexivity|].
  split; [reflexivity|]. split; [reflexivity|].
  vm_compute. discriminate.
Qed.

(** C9, amended.  A tick of the fire timer with no enemy does nothing.  With
    [n > 0] enemies and [Math.random()] returning the double [r], the enemy
    at index [k = Math.floor(r * n)] is selected, where [r * n] is the
    double product: [k < n], so it is always an enemy of the array, and [k]
    is the floor of the exact product or, when the double product is rounded
    up to an integer, one more.  If that enemy is below height 4, exactly
    one enemy bullet is appended, at the enemy's [x] and at
    [y - ENEMY_HEIGHT / 2 - ENEMY_BULLET_HEIGHT / 2], that is 0.75 under the
    enemy's position; otherwise nothing is appended.  Nothing else changes.
    Every enemy of the array is the one selected for some draw. *)
Theorem enemy_fire_from_random_enemy :
  (forall r g, enemiesRef g = [] -> enemyShootInterval r g = g) /\
  (forall r g sc,
      sceneRef g = Some sc -> validRandom r -> enemiesRef g <> [] ->
      let n := length (enemiesRef g) in
      exists k e,
        k = randomIndex r n /\ (k < n)%nat /\
        enemiesRef g !! k = Some e /\
        (Z.of_nat n < 2 ^ 32 ->
         let k0 := Qfloor (randomValue r * inject_Z (Z.of_nat n)) in
         k0 <= Z.of_nat k <= k0 + 1) /\
        ((pos_y e < 4)%Q ->
         exists eb,
           enemyShootInterval r g
           = set_enemyBullets (enemyBulletsRef g ++ [eb]) g /\
           pos_x eb = pos_x e /\
           (pos_y eb == pos_y e - (75 # 100))%Q) /\
        ((4 <= pos_y e)%Q -> enemyShootInterval r g = g)) /\
  (forall g k e,
      enemiesRef g !! k = Some e ->
      Z.of_nat (length (enemiesRef g)) < 2 ^ 32 ->
      exists r, validRandom r /\ randomIndex r (length (enemiesRef g)) = k).
Proof.
  split; [|split].
  - intros r g H. unfold enemyShootInterval. rewrite H.
    now destruct (sceneRef g).
  - intros r g sc Hs Hr Hne n.
    assert (Hn : (0 < n)%nat).
    { unfold n. destruct (enemiesRef g); [congruence|simpl; lia]. }
    pose proof (randomIndex_in_range r n Hr Hn) as Hk.
    destruct (lookup_lt_is_Some_2 (enemiesRef g) _ Hk) as [e He].
    exists (randomIndex r n), e.
    split; [reflexivity|]. split; [assumption|]. split; [assumption|].
    split.
    { intros Hlen. cbn zeta. rewrite exact_floor by assumption.
      apply randomIndex_near_floor; [assumption|].
      change (2 ^ 32) with 4294967296 in Hlen.
      change (2 ^ 53) with 9007199254740992. lia. }
    assert (Hstep : enemyShootInterval r g
                    = if Qlt_bool (pos_y e) 4
                      then set_enemyBullets
                             (enemyBulletsRef g
                              ++ [mkMesh (pos_x e)
                                    (pos_y e - ENEMY_HEIGHT / 2
                                     - ENEMY_BULLET_HEIGHT / 2)%Q]) g
                      else g).
    { unfold enemyShootInterval. rewrite Hs.
      destruct (enemiesRef g) as [|e0 es] eqn:E; [congruence|].
      fold n. now rewrite He. }
    split.
    + intros Hy. apply Qlt_bool_iff in Hy. rewrite Hy in Hstep.
      eexists. split; [exact Hstep|]. split; [reflexivity|].
      cbn [pos_y]. unfold ENEMY_HEIGHT, ENEMY_BULLET_HEIGHT, Qdiv.
      change (/ 2)%Q with (1 # 2)%Q. lra.
    + intros Hy. apply Qlt_bool_false_iff in Hy. now rewrite Hy in Hstep.
  - intros g k e He Hlen.
    apply lookup_lt_Some in He.
    destruct (randomIndex_onto (length (enemiesRef g)) k He Hlen) as [Hv Hi].
    eexists. split; [exact Hv|exact Hi].
Qed.

Lemma enemy_fire_from_random_enemy_witness :
  (exists e eb,
      enemiesRef threeEnemies !! 1%nat = Some e /\
      enemyShootInterval drawHalf threeEnemies
      = set_enemyBullets (enemyBulletsRef threeEnemies ++ [eb]) threeEnemies /\
      pos_x eb = pos_x e /\ (pos_y eb == pos_y e - (75 # 100))%Q) /\
  (exists r, validRandom r /\ randomIndex r 3 = 2%nat).
Proof.
  split.
  - destruct (proj1 (proj2 enemy_fire_from_random_enemy) drawHalf threeEnemies
                (mkScene 0x0a0a2a) eq_refl)
      as (k & e & Hk & _ & He & _ & Hfire & _).
    + vm_compute. repeat split; discriminate.
    + discriminate.
    + vm_compute in Hk. subst k.
      assert (Hy : (pos_y e < 4)%Q).
      { vm_compute in He. injection He as <-. reflexivity. }
      destruct (Hfire Hy) as (eb & Hs & Hx & Hyy).
      exists e, eb. repeat split; assumption.
  - apply (proj2 (proj2 enemy_fire_from_random_enemy) threeEnemies 2%nat
             (mkMesh 2 (45 # 10))); reflexivity.
Defined.

(** A draw whose product with 3 is rounded up to 2: the exact product is
    below 2, the index is 2.  The third enemy of [threeEnemies] is not below
    height 4 and does not fire. *)
Example enemy_above_threshold_holds_fire :
  Qfloor (randomValue drawRoundedUp * 3) = 1 /\
  randomIndex drawRoundedUp 3 = 2%nat /\
  enemyShootInterval drawRoundedUp threeEnemies = threeEnemies.
Proof. repeat split; vm_compute; reflexivity. Qed.

(** * Explosions *)

(** C7, as stated, fails: [animate] takes no elapsed time, and lowers every
    countdown by the constant [1/60].  For a frame that lasted any other
    time [elapsed], the countdown of [oneBlast] is not lowered by
    [elapsed]. *)
Lemma countdown_ignores_elapsed_time :
  exists g' ex',
    animate oneBlast = Some g' /\ explosions g' = [ex'] /\
    (timer ex' == (20 # 60) - (1 # 60))%Q /\
    forall elapsed : Q,
      ~ (elapsed == 1 # 60)%Q -> ~ (timer ex' == (20 # 60) - elapsed)%Q.
Proof.
  eexists. eexists. split; [vm_compute; reflexivity|].
  split; [reflexivity|]. split; [reflexivity|].
  intros elapsed Hne Heq. apply Hne. cbn [timer] in Heq. lra.
Qed.

(** C7, amended.  In every frame, the countdown of each explosion, those
    already there and those made in the frame (one [marker] per enemy
    [destroyed] by a bullet, one explosion at the player per hit on the
    player), is lowered by the constant [1/60], whatever time the frame
    took; an explosion whose countdown is then 0 or below is removed in that
    frame, and the others are kept, in their order. *)
Theorem explosions_tick_by_a_sixtieth (g : Game) (p0 : Mesh) (sc : Scene) :
  running g = true -> playerRef g = Some p0 -> sceneRef g = Some sc ->
  let p := movePlayer (moveRef g) (viewWidth g) p0 in
  exists g' destroyed,
    animate g = Some g' /\
    explosions g'
    = omap explosionFate
        (explosions g ++ (marker <$> destroyed)
         ++ replicate (playerHits g p) (mkExplosion p (5 # 10))) /\
    (forall ex, (timer ex - 1 / 60 <= 0)%Q -> explosionFate ex = None) /\
    (forall ex, (0 < timer ex - 1 / 60)%Q ->
                explosionFate ex
                = Some (mkExplosion (mesh ex) (timer ex - 1 / 60)%Q)) /\
    Forall (fun ex => (0 < timer ex)%Q) (explosions g').
Proof.
  intros Hr Hp Hs p.
  destruct (updateBullets_spec (set_player p g))
    as (d & _ & _ & _ & _ & Hex & _).
  exists (frame g p), d.
  split; [now apply (animate_frame g p0 sc)|].
  assert (Hfate_gone : forall ex, (timer ex - 1 / 60 <= 0)%Q ->
                                  explosionFate ex = None).
  { intros ex H. unfold explosionFate. cbn [timer].
    apply Qle_bool_iff in H. now rewrite H. }
  assert (Hfate_kept : forall ex, (0 < timer ex - 1 / 60)%Q ->
            explosionFate ex
            = Some (mkExplosion (mesh ex) (timer ex - 1 / 60)%Q)).
  { intros ex H. unfold explosionFate. cbn [timer].
    destruct (Qle_bool _ 0) eqn:E; [|reflexivity].
    apply Qle_bool_iff in E. exfalso. exact (Qlt_not_le _ _ H E). }
  split.
  { rewrite explosions_frame, Hex.
    replace (explosions (set_player p g)) with (explosions g)
      by now destruct g.
    now rewrite <- app_assoc. }
  split; [assumption|]. split; [assumption|].
  rewrite explosions_frame. apply Forall_forall. intros ex Hin.
  apply list_elem_of_omap in Hin as (ex0 & _ & Hf).
  unfold explosionFate in Hf. cbn [timer] in Hf.
  destruct (Qle_bool _ 0) eqn:E; [discriminate|].
  injection Hf as <-. cbn [timer].
  apply Qnot_le_lt. intros Hle. apply Qle_bool_iff in Hle. congruence.
Qed.

Lemma explosions_tick_by_a_sixtieth_witness :
  exists g',
    animate oneBlast = Some g' /\
    Forall (fun ex => (0 < timer ex)%Q) (explosions g').
Proof.
  destruct (explosions_tick_by_a_sixtieth oneBlast (mkMesh 0 (-4))
              (mkScene 0x0a0a2a) eq_refl eq_refl eq_refl)
    as (g' & d & Ha & _ & _ & _ & Hpos).
  exists g'. split; [exact Ha|exact Hpos].
Defined.

(** * Restart *)

(** What the restart button resets, and what it leaves: the player's
    bullets, which the first frame of the new round moves on. *)
Lemma restart_resets g :
  score (restart g) = 0 /\ lives (restart g) = 3 /\
  gameOver (restart g) = false /\ running (restart g) = true /\
  enemiesRef (restart g) = [] /\ enemyBulletsRef (restart g) = [] /\
  explosions (restart g) = [] /\
  bulletsRef (restart g) = omap bulletFate (bulletsRef g).
Proof.
  unfold restart.
  destruct (gameEffect_fields (handleRestart g) eq_refl)
    as (Hsc & Hl & Hgo & Hr & _ & _ & _ & Hb & He & Heb & Hx & _).
  rewrite Hsc, Hl, Hgo, Hr, Hb, He, Heb, Hx. repeat split.
Qed.

(** C8.  A click on the restart button puts score, lives, enemies, enemy
    bullets and [gameOver] back to their initial values, and leaves the
    player's bullets: after it, [bulletsRef] holds every bullet it held
    before that is not past the upper limit, one step further up.  The
    effect empties [enemiesRef] and [enemyBulletsRef] (lines 306-307) and
    not [bulletsRef].  The game [lostGame] ends in [gameOver] with two
    bullets of the player in the air, at height 4.9: after the click the
    player is back at (0, -4) and the two bullets fly on at height 5.1. *)
Theorem restart_keeps_player_bullets :
  (forall g,
      score (restart g) = 0 /\ lives (restart g) = 3 /\
      gameOver (restart g) = false /\
      enemiesRef (restart g) = [] /\ enemyBulletsRef (restart g) = [] /\
      bulletsRef (restart g) = omap bulletFate (bulletsRef g)) /\
  (exists g l r,
      run lostGame (mount (mkSize 800 600%positive)) = Some g /\
      gameOver g = true /\
      deliver RestartClick g = Some (restart g) /\
      playerRef (restart g) = Some (mkMesh 0 (-4)) /\
      bulletsRef g = [l; r] /\
      bulletsRef (restart g) = [advanceBullet l; advanceBullet r] /\
      (pos_x l == - (575 # 1000))%Q /\ (pos_x r == 575 # 1000)%Q /\
      (pos_y (advanceBullet l) == 51 # 10)%Q /\
      (pos_y (advanceBullet r) == 51 # 10)%Q).
Proof.
  split.
  - intros g. pose proof (restart_resets g). tauto.
  - eexists. eexists. eexists. split; [vm_compute; reflexivity|].
    split; [reflexivity|]. split; [reflexivity|].
    split; [vm_compute; reflexivity|].
    split; [reflexivity|].
    split; [vm_compute; reflexivity|].
    repeat split; vm_compute; reflexivity.
Qed.

(** * Scenarios *)

(** An enemy at (0, 5) and a bullet at (0, 4.9): after one frame both are
    gone, the score is one higher, and there is one explosion, at the
    enemy's place, whose countdown has already gone from 0.35 to
    [0.35 - 1/60]. *)
Example bullet_meets_enemy :
  exists g' ex,
    animate (set_enemies [mkMesh 0 5]
               (set_bullets [mkMesh 0 (49 # 10)] fresh)) = Some g' /\
    bulletsRef g' = [] /\ enemiesRef g' = [] /\ score g' = 1 /\
    explosions g' = [ex] /\ mesh ex = mkMesh 0 5 /\
    (timer ex == (35 # 100) - (1 # 60))%Q.
Proof.
  eexists. eexists. split; [vm_compute; reflexivity|].
  repeat split; reflexivity.
Qed.

(** The player at (0, -4) with one life and an enemy bullet on it: after one
    frame no life is left and the game is over. *)
Example last_life_lost :
  exists g',
    animate (set_lives 1 (set_enemyBullets [mkMesh 0 (-4)] fresh))
    = Some g' /\
    lives g' = 0 /\ gameOver g' = true /\ enemyBulletsRef g' = [].
Proof.
  eexists. split; [vm_compute; reflexivity|].
  repeat split; reflexivity.
Qed.

(** An enemy that passes the lower limit without touching anything is
    removed; the score and the lives are kept. *)
Example enemy_leaves_through_the_bottom :
  exists g',
    animate (set_enemies [mkMesh 3 (-59 # 10)] fresh) = Some g' /\
    enemiesRef g' = [] /\ score g' = 0 /\ lives g' = 3 /\
    explosions g' = [].
Proof.
  eexists. split; [vm_compute; reflexivity|].
  repeat split; reflexivity.
Qed.

(** With no key held and nothing in the world, a frame changes nothing. *)
Example idle_frame : animate fresh = Some fresh.
Proof. reflexivity. Qed.

(** * More about a frame *)

(** ** What is left at the end of a frame *)

Lemma omap_sublist_fmap {A B : Type} (f : A -> option B) (h : A -> B)
      (l : list A) :
  (forall a b, f a = Some b -> b = h a) ->
  omap f l `sublist_of` (h <$> l).
Proof.
  intros Hf. induction l as [|a l IH]; cbn; [constructor|].
  destruct (f a) as [b|] eqn:E.
  - rewrite (Hf a b E). now apply sublist_skip.
  - now apply sublist_cons.
Qed.

Lemma enemyFate_Some p e0 e :
  enemyFate p e0 = Some e ->
  e = advanceEnemy e0 /\ enemyHitsPlayer e p = false /\ enemyGone e = false.
Proof.
  unfold enemyFate.
  destruct (enemyHitsPlayer _ p) eqn:Hh; [discriminate|].
  destruct (enemyGone _) eqn:Hg; [discriminate|].
  intros [= <-]. auto.
Qed.

Lemma enemyBulletFate_Some p b0 eb :
  enemyBulletFate p b0 = Some eb ->
  eb = advanceEnemyBullet b0 /\ enemyBulletHitsPlayer eb p = false /\
  enemyBulletGone eb = false.
Proof.
  unfold enemyBulletFate.
  destruct (enemyBulletGone _) eqn:Hg; [discriminate|].
  destruct (enemyBulletHitsPlayer _ p) eqn:Hh; [discriminate|].
  intros [= <-]. auto.
Qed.

Lemma enemiesRef_frame g p :
  enemiesRef (frame g p)
  = omap (enemyFate p) (enemiesRef (updateBullets (set_player p g))).
Proof. reflexivity. Qed.

Lemma enemyBulletsRef_frame g p :
  enemyBulletsRef (frame g p)
  = omap (enemyBulletFate p) (enemyBulletsRef g).
Proof. reflexivity. Qed.

(** The loop over bullets again, for what can be said of each bullet it
    leaves: it is not past the upper limit, and it overlaps none of the
    enemies that are left when the loop ends. *)
Lemma bullets_loop_clear pre :
  forall suf g,
    bulletsRef g = pre ++ suf ->
    exists pre',
      let g' := forDown (length pre) bulletStep g in
      bulletsRef g' = pre' ++ suf /\
      enemiesRef g' `sublist_of` enemiesRef g /\
      Forall (fun b => bulletGone b = false /\
                       Forall (fun e => bulletHitsEnemy b e = false)
                              (enemiesRef g')) pre'.
Proof.
  induction pre as [|a pre IH] using rev_ind; intros suf g H.
  - exists []. cbn. repeat split; auto.
  - rewrite length_app, Nat.add_1_r. cbn [forDown].
    assert (Ha : bulletsRef g !! length pre = Some a)
      by (rewrite H; apply lookup_snoc_app).
    rewrite (bulletStep_outcome _ _ _ Ha), H.
    rewrite delete_snoc_app, insert_snoc_app.
    unfold bulletOutcome.
    destruct (bulletGone (advanceBullet a)) eqn:Hgone.
    + destruct (IH suf (set_bullets (pre ++ suf) g) eq_refl)
        as (pre' & Hb & Hes & Hall).
      exists pre'. cbn zeta in *. auto.
    + destruct (scanEnemies _ _ _) as [[j e]|] eqn:Scan.
      * match goal with |- context [forDown _ _ ?s] =>
          destruct (IH suf s eq_refl) as (pre' & Hb & Hes & Hall)
        end.
        exists pre'. cbn zeta in *.
        cbn [enemiesRef setScore set_enemies set_bullets push_explosion
             set_explosions] in *.
        split; [exact Hb|]. split; [|exact Hall].
        etransitivity; [exact Hes|]. apply sublist_delete.
      * destruct (IH (advanceBullet a :: suf)
                     (set_bullets (pre ++ advanceBullet a :: suf) g) eq_refl)
          as (pre' & Hb & Hes & Hall).
        exists (pre' ++ [advanceBullet a]). cbn zeta in *.
        cbn [enemiesRef set_bullets] in *.
        split; [now rewrite <- app_assoc|]. split; [exact Hes|].
        apply Forall_app. split; [exact Hall|].
        apply Forall_cons. split; [|constructor].
        split; [exact Hgone|].
        apply Forall_forall. intros e He.
        apply (elem_of_sublist _ _ _ He) in Hes.
        apply list_elem_of_lookup in Hes as [j Hj].
        apply (scanEnemies_None _ _ _ Scan j e); [|exact Hj].
        eapply lookup_lt_Some; exact Hj.
Qed.

(** X2.
    A frame makes no enemy and no bullet: the enemies left at its end are
    enemies it started with, each moved down by [ENEMY_SPEED], in their
    order, and likewise the enemy bullets, moved down by
    [ENEMY_BULLET_SPEED]; none of the three arrays grows. *)
Theorem frame_only_moves_or_removes (g : Game) (p0 : Mesh) (sc : Scene) :
  running g = true -> playerRef g = Some p0 -> sceneRef g = Some sc ->
  exists g',
    animate g = Some g' /\
    enemiesRef g' `sublist_of` (advanceEnemy <$> enemiesRef g) /\
    enemyBulletsRef g'
      `sublist_of` (advanceEnemyBullet <$> enemyBulletsRef g) /\
    (length (enemiesRef g') <= length (enemiesRef g))%nat /\
    (length (enemyBulletsRef g') <= length (enemyBulletsRef g))%nat /\
    (length (bulletsRef g') <= length (bulletsRef g))%nat.
Proof.
  intros Hr Hp Hs. set (p := movePlayer (moveRef g) (viewWidth g) p0).
  exists (frame g p). split; [now apply (animate_frame g p0 sc)|].
  destruct (updateBullets_spec (set_player p g))
    as (d & Hbs & Hlen & _ & Hes & _).
  assert (He : enemiesRef (frame g p)
               `sublist_of` (advanceEnemy <$> enemiesRef g)).
  { rewrite enemiesRef_frame. etransitivity.
    - apply omap_sublist_fmap. intros a b Hf.
      now apply enemyFate_Some in Hf as (-> & _).
    - apply fmap_sublist. exact Hes. }
  assert (Heb : enemyBulletsRef (frame g p)
                `sublist_of` (advanceEnemyBullet <$> enemyBulletsRef g)).
  { rewrite enemyBulletsRef_frame. apply omap_sublist_fmap.
    intros a b Hf. now apply enemyBulletFate_Some in Hf as (-> & _). }
  split; [exact He|]. split; [exact Heb|].
  apply sublist_length in He, Heb. rewrite length_fmap in He, Heb.
  split; [exact He|]. split; [exact Heb|].
  destruct (frame_beside g p) as (_ & -> & _).
  cbn [bulletsRef set_player] in Hlen. lia.
Qed.

Lemma frame_only_moves_or_removes_witness :
  exists g',
    animate oneKill = Some g' /\
    (length (enemiesRef g') <= 2)%nat /\ (length (bulletsRef g') <= 1)%nat.
Proof.
  destruct (frame_only_moves_or_removes oneKill (mkMesh 0 (-4))
              (mkScene 0x0a0a2a) eq_refl eq_refl eq_refl)
    as (g' & Ha & _ & _ & He & _ & Hb).
  exists g'. split; [exact Ha|]. split; [exact He|exact Hb].
Defined.

(** X3.
    At the end of a frame nothing is left outside the limits the loops
    test: no bullet of the player above [5 + BULLET_HEIGHT], no enemy bullet
    below [-5 - ENEMY_BULLET_HEIGHT], no enemy below [-5 - ENEMY_HEIGHT]. *)
Theorem frame_leaves_nothing_past_the_limits
        (g : Game) (p0 : Mesh) (sc : Scene) :
  running g = true -> playerRef g = Some p0 -> sceneRef g = Some sc ->
  exists g',
    animate g = Some g' /\
    Forall (fun b => (pos_y b <= 5 + BULLET_HEIGHT)%Q) (bulletsRef g') /\
    Forall (fun eb => (-5 - ENEMY_BULLET_HEIGHT <= pos_y eb)%Q)
           (enemyBulletsRef g') /\
    Forall (fun e => (-5 - ENEMY_HEIGHT <= pos_y e)%Q) (enemiesRef g').
Proof.
  intros Hr Hp Hs. set (p := movePlayer (moveRef g) (viewWidth g) p0).
  exists (frame g p). split; [now apply (animate_frame g p0 sc)|].
  split; [|split].
  - destruct (frame_beside g p) as (_ & -> & _). unfold updateBullets.
    destruct (bullets_loop_clear (bulletsRef (set_player p g)) []
                (set_player p g)) as (pre' & Hb & _ & Hall);
      [now rewrite app_nil_r|].
    cbn zeta in Hb, Hall. rewrite Hb, app_nil_r.
    eapply Forall_impl; [exact Hall|].
    intros b [Hgone _]. now apply Qlt_bool_false_iff in Hgone.
  - rewrite enemyBulletsRef_frame. apply Forall_forall. intros eb Hin.
    apply list_elem_of_omap in Hin as (b0 & _ & Hf).
    apply enemyBulletFate_Some in Hf as (_ & _ & Hgone).
    now apply Qlt_bool_false_iff in Hgone.
  - rewrite enemiesRef_frame. apply Forall_forall. intros e Hin.
    apply list_elem_of_omap in Hin as (e0 & _ & Hf).
    apply enemyFate_Some in Hf as (_ & _ & Hgone).
    now apply Qlt_bool_false_iff in Hgone.
Qed.

Lemma frame_leaves_nothing_past_the_limits_witness :
  exists g',
    animate lateBullet = Some g' /\
    Forall (fun b => (pos_y b <= 5 + BULLET_HEIGHT)%Q) (bulletsRef g') /\
    Forall (fun e => (-5 - ENEMY_HEIGHT <= pos_y e)%Q) (enemiesRef g').
Proof.
  destruct (frame_leaves_nothing_past_the_limits lateBullet (mkMesh 0 (-4))
              (mkScene 0x0a0a2a) eq_refl eq_refl eq_refl)
    as (g' & Ha & Hb & _ & He).
  exists g'. split; [exact Ha|]. split; [exact Hb|exact He].
Defined.

(** X4.
    Every collision with the player is settled in the frame that finds it:
    at the end of a frame no enemy bullet and no enemy that is left overlaps
    the player where the frame put it. *)
Theorem frame_leaves_nothing_on_the_player
        (g : Game) (p0 : Mesh) (sc : Scene) :
  running g = true -> playerRef g = Some p0 -> sceneRef g = Some sc ->
  exists g' p,
    animate g = Some g' /\ playerRef g' = Some p /\
    Forall (fun eb => enemyBulletHitsPlayer eb p = false)
           (enemyBulletsRef g') /\
    Forall (fun e => enemyHitsPlayer e p = false) (enemiesRef g').
Proof.
  intros Hr Hp Hs. set (p := movePlayer (moveRef g) (viewWidth g) p0).
  exists (frame g p), p. split; [now apply (animate_frame g p0 sc)|].
  split; [apply frame_beside|]. split.
  - rewrite enemyBulletsRef_frame. apply Forall_forall. intros eb Hin.
    apply list_elem_of_omap in Hin as (b0 & _ & Hf).
    now apply enemyBulletFate_Some in Hf as (_ & Hh & _).
  - rewrite enemiesRef_frame. apply Forall_forall. intros e Hin.
    apply list_elem_of_omap in Hin as (e0 & _ & Hf).
    now apply enemyFate_Some in Hf as (_ & Hh & _).
Qed.

Lemma frame_leaves_nothing_on_the_player_witness :
  exists g' p,
    animate grazing = Some g' /\ playerRef g' = Some p /\
    length (enemyBulletsRef g') = 0%nat /\ lives g' = 2.
Proof.
  destruct (frame_leaves_nothing_on_the_player grazing (mkMesh 0 (-4))
              (mkScene 0x0a0a2a) eq_refl eq_refl eq_refl)
    as (g' & p & Ha & Hp & _ & _).
  exists g', p. split; [exact Ha|]. split; [exact Hp|].
  vm_compute in Ha. injection Ha as <-. split; reflexivity.
Defined.

(** X5.
    When the loop over the player's bullets ends, no bullet that is left
    overlaps an enemy that is left: a hit found by the loop always removes
    the pair, and no pair is overlooked. *)
Theorem bullets_left_overlap_no_enemy_left (g : Game) :
  Forall (fun b => Forall (fun e => bulletHitsEnemy b e = false)
                          (enemiesRef (updateBullets g)))
         (bulletsRef (updateBullets g)).
Proof.
  unfold updateBullets.
  destruct (bullets_loop_clear (bulletsRef g) [] g) as (pre' & Hb & _ & Hall);
    [now rewrite app_nil_r|].
  cbn zeta in Hb, Hall. rewrite Hb, app_nil_r.
  eapply Forall_impl; [exact Hall|]. now intros b [_ H].
Qed.

(** * Moving the player *)


Lemma clamp_inside (lo hi x x2 : Q) :
  (lo <= x)%Q -> (x <= hi)%Q -> (x2 == x)%Q ->
  (Qmax lo (Qmin hi x2) == x)%Q.
Proof.
  intros Hlo Hhi E.
  destruct (Q.max_spec lo (Qmin hi x2)) as [[Hm Em]|[Hm Em]];
    destruct (Q.min_spec hi x2) as [[Hn En]|[Hn En]];
    rewrite Em; rewrite ?En in *; lra.
Qed.



(** * Keys *)

(** The test of [onKeyDown] for the fire key. *)
Lemma onKeyDown_no_fire e g :
  (String.eqb (key e) " " || String.eqb (code e) "Space")%bool = false ->
  onKeyDown e g
  = set_move
      (mkMove
         (isKey e "ArrowLeft" "a" "A" || move_left (moveRef g))
         (isKey e "ArrowRight" "d" "D" || move_right (moveRef g))
         (isKey e "ArrowUp" "w" "W" || move_up (moveRef g))
         (isKey e "ArrowDown" "s" "S" || move_down (moveRef g))) g.
Proof.
  intros Hf. unfold onKeyDown. rewrite Hf.
  destruct (isKey e "ArrowLeft" "a" "A"), (isKey e "ArrowRight" "d" "D"),
    (isKey e "ArrowUp" "w" "W"), (isKey e "ArrowDown" "s" "S");
    destruct g as [? ? ? ? ? ? ? ? ? [[] [] [] []] ? ? ?]; reflexivity.
Qed.

Lemma onKeyUp_spec e g :
  onKeyUp e g
  = set_move
      (mkMove
         (negb (isKey e "ArrowLeft" "a" "A") && move_left (moveRef g))
         (negb (isKey e "ArrowRight" "d" "D") && move_right (moveRef g))
         (negb (isKey e "ArrowUp" "w" "W") && move_up (moveRef g))
         (negb (isKey e "ArrowDown" "s" "S") && move_down (moveRef g))) g.
Proof.
  unfold onKeyUp.
  destruct (isKey e "ArrowLeft" "a" "A"), (isKey e "ArrowRight" "d" "D"),
    (isKey e "ArrowUp" "w" "W"), (isKey e "ArrowDown" "s" "S");
    destruct g as [? ? ? ? ? ? ? ? ? [[] [] [] []] ? ? ?]; reflexivity.
Qed.

(** X7.
    A key other than the fire key touches nothing but the held directions:
    pressing it holds the directions it stands for, releasing it releases
    them, and a press followed by a release gives back the state there was,
    provided none of its directions was held already.  A key that stands for
    no direction changes nothing at all.  A direction is a flag, not a
    count: the release of one of its keys releases it even if another of its
    keys is still down. *)
Theorem press_then_release_restores (e : KeyboardEvent) (g : Game) :
  (String.eqb (key e) " " || String.eqb (code e) "Space")%bool = false ->
  (isKey e "ArrowLeft" "a" "A" = true -> move_left (moveRef g) = false) ->
  (isKey e "ArrowRight" "d" "D" = true -> move_right (moveRef g) = false) ->
  (isKey e "ArrowUp" "w" "W" = true -> move_up (moveRef g) = false) ->
  (isKey e "ArrowDown" "s" "S" = true -> move_down (moveRef g) = false) ->
  onKeyUp e (onKeyDown e g) = g /\
  (isKey e "ArrowLeft" "a" "A" = false ->
   isKey e "ArrowRight" "d" "D" = false ->
   isKey e "ArrowUp" "w" "W" = false ->
   isKey e "ArrowDown" "s" "S" = false ->
   onKeyDown e g = g /\ onKeyUp e g = g) /\
  (forall g0,
      (isKey e "ArrowLeft" "a" "A" = true ->
       move_left (moveRef (onKeyUp e g0)) = false) /\
      (isKey e "ArrowRight" "d" "D" = true ->
       move_right (moveRef (onKeyUp e g0)) = false) /\
      (isKey e "ArrowUp" "w" "W" = true ->
       move_up (moveRef (onKeyUp e g0)) = false) /\
      (isKey e "ArrowDown" "s" "S" = true ->
       move_down (moveRef (onKeyUp e g0)) = false)).
Proof.
  intros Hf Hl Hr Hu Hd.
  assert (Hrel : forall g0,
      (isKey e "ArrowLeft" "a" "A" = true ->
       move_left (moveRef (onKeyUp e g0)) = false) /\
      (isKey e "ArrowRight" "d" "D" = true ->
       move_right (moveRef (onKeyUp e g0)) = false) /\
      (isKey e "ArrowUp" "w" "W" = true ->
       move_up (moveRef (onKeyUp e g0)) = false) /\
      (isKey e "ArrowDown" "s" "S" = true ->
       move_down (moveRef (onKeyUp e g0)) = false)).
  { intros g0. rewrite onKeyUp_spec. cbn [set_move moveRef move_left
      move_right move_up move_down].
    repeat split; intros ->; reflexivity. }
  match goal with |- ?A /\ ?B /\ _ =>
    enough (HAB : A /\ B)
      by (destruct HAB as [HA HB]; exact (conj HA (conj HB Hrel)))
  end.
  clear Hrel.
  rewrite (onKeyDown_no_fire e g Hf), !onKeyUp_spec.
  destruct (isKey e "ArrowLeft" "a" "A"), (isKey e "ArrowRight" "d" "D"),
    (isKey e "ArrowUp" "w" "W"), (isKey e "ArrowDown" "s" "S");
    destruct g as [? ? ? ? ? ? ? ? ? [ml mr mu md] ? ? ?];
    cbn in Hl, Hr, Hu, Hd |- *;
    rewrite ?Hl, ?Hr, ?Hu, ?Hd by reflexivity;
    cbn; (split; [reflexivity|]); intros; try discriminate;
    split; reflexivity.
Qed.

Lemma press_then_release_restores_witness :
  onKeyUp (mkKey "a" "KeyA") (onKeyDown (mkKey "a" "KeyA") fresh) = fresh /\
  move_left (moveRef (onKeyDown (mkKey "a" "KeyA") fresh)) = true.
Proof.
  split; [|reflexivity].
  exact (proj1 (press_then_release_restores (mkKey "a" "KeyA") fresh eq_refl
                  (fun _ => eq_refl) (fun _ => eq_refl)
                  (fun _ => eq_refl) (fun _ => eq_refl))).
Defined.

Lemma refs_onKeyDown e g :
  sceneRef (onKeyDown e g) = sceneRef g /\
  playerRef (onKeyDown e g) = playerRef g.
Proof.
  pose proof (core_onKeyDown e g) as H. unfold core in H.
  injection H as _ _ _ Hp Hs. auto.
Qed.

Lemma running_onKeyDown e g : running (onKeyDown e g) = running g.
Proof.
  pose proof (core_onKeyDown e g) as H. unfold core in H.
  now injection H as _ _ Hr _ _.
Qed.

(** X8.
    Firing has no cooldown.  While the round is running, which is while the
    effect's key listener is installed, [n] key-down events of the space bar
    in a row (presses, or the repeats that the keyboard sends while the bar
    is held) add [3 * n] bullets.  Once the round has stopped, they add
    none. *)
Theorem fire_has_no_cooldown (e : KeyboardEvent) (n : nat) (g : Game)
        (p : Mesh) (sc : Scene) :
  sceneRef g = Some sc -> playerRef g = Some p ->
  (String.eqb (key e) " " || String.eqb (code e) "Space")%bool = true ->
  (running g = true ->
   exists g',
     run (replicate n (KeyDown e)) g = Some g' /\
     length (bulletsRef g') = (length (bulletsRef g) + 3 * n)%nat) /\
  (running g = false -> run (replicate n (KeyDown e)) g = Some g).
Proof.
  intros Hs Hp Hf. split.
  - revert g Hs Hp. induction n as [|n IH]; intros g Hs Hp Hr.
    + exists g. split; [reflexivity|lia].
    + cbn [replicate run deliver]. rewrite Hr.
      destruct (refs_onKeyDown e g) as (Hs' & Hp').
      destruct (IH (onKeyDown e g)) as (g' & Hrun & Hlen).
      * now rewrite Hs'.
      * now rewrite Hp'.
      * now rewrite running_onKeyDown.
      * exists g'. split; [exact Hrun|].
        rewrite Hlen, (space_bar_fires_once e g p sc Hs Hp Hf). lia.
  - intros Hr. induction n as [|n IH]; [reflexivity|].
    cbn [replicate run deliver]. rewrite Hr. exact IH.
Qed.

Lemma fire_has_no_cooldown_witness :
  (exists g',
      run (replicate 4 (KeyDown spaceKey)) fresh = Some g' /\
      length (bulletsRef g') = 12%nat) /\
  run (replicate 4 (KeyDown spaceKey)) (cleanup fresh) = Some (cleanup fresh).
Proof.
  split.
  - exact (proj1 (fire_has_no_cooldown spaceKey 4 fresh (mkMesh 0 (-4))
                    (mkScene 0x0a0a2a) eq_refl eq_refl eq_refl) eq_refl).
  - exact (proj2 (fire_has_no_cooldown spaceKey 4 (cleanup fresh)
                    (mkMesh 0 (-4)) (mkScene 0x0a0a2a) eq_refl eq_refl
                    eq_refl) eq_refl).
Defined.

(** * Spawning enemies *)

(** X9.
    A tick of the spawn timer appends one enemy and changes nothing else.
    In a view at least as wide as an enemy, the new enemy is wholly inside
    the view from left to right, wherever the draw falls; it sits at height
    5.45, its lower edge on the top of the view. *)
Theorem enemy_spawns_inside_the_view (r : Q) (g : Game) (sc : Scene) :
  sceneRef g = Some sc ->
  (0 <= r)%Q -> (r < 1)%Q -> (ENEMY_WIDTH <= viewWidth g)%Q ->
  let e := spawnedEnemy r (viewWidth g) in
  enemyInterval r g = set_enemies (enemiesRef g ++ [e]) g /\
  (- viewWidth g / 2 <= pos_x e - ENEMY_WIDTH / 2)%Q /\
  (pos_x e + ENEMY_WIDTH / 2 <= viewWidth g / 2)%Q /\
  (pos_y e == 545 # 100)%Q /\
  (pos_y e - ENEMY_HEIGHT / 2 == viewHeight / 2)%Q.
Proof.
  intros Hs H0 H1 Hw e. split.
  - unfold enemyInterval. now rewrite Hs.
  - unfold e, spawnedEnemy. cbn [pos_x pos_y].
    unfold ENEMY_WIDTH, ENEMY_HEIGHT, viewHeight, Qdiv in *.
    change (/ 2)%Q with (1 # 2)%Q.
    set (vw := viewWidth g) in *.
    repeat split; try lra; nra.
Qed.

Lemma enemy_spawns_inside_the_view_witness :
  let e := spawnedEnemy (9 # 10) (viewWidth fresh) in
  enemiesRef (enemyInterval (9 # 10) fresh) = [e] /\
  (pos_x e + ENEMY_WIDTH / 2 <= viewWidth fresh / 2)%Q.
Proof.
  destruct (enemy_spawns_inside_the_view (9 # 10) fresh (mkScene 0x0a0a2a)
              eq_refl) as (Hspawn & _ & Hr & _).
  - vm_compute. discriminate.
  - reflexivity.
  - vm_compute. discriminate.
  - cbn zeta. split; [now rewrite Hspawn|exact Hr].
Defined.

Lemma iter_advanceEnemy (k : nat) (e : Mesh) :
  pos_x (Nat.iter k advanceEnemy e) = pos_x e /\
  (pos_y (Nat.iter k advanceEnemy e)
   == pos_y e - inject_Z (Z.of_nat k) * ENEMY_SPEED)%Q.
Proof.
  induction k as [|k [IHx IHy]].
  - change (Nat.iter 0 advanceEnemy e) with e.
    change (inject_Z (Z.of_nat 0)) with 0%Q.
    split; [reflexivity|]. unfold ENEMY_SPEED. lra.
  - rewrite Nat.iter_succ. unfold advanceEnemy at 1 3. cbn [pos_x pos_y].
    split; [exact IHx|]. rewrite IHy, Nat2Z.inj_succ.
    unfold Z.succ. rewrite inject_Z_plus. change (inject_Z 1) with 1%Q.
    unfold ENEMY_SPEED. lra.
Qed.

(** X10.
    A new enemy holds its fire while it comes down: picked by the fire timer
    after [k] frames of descent, it shoots if and only if [k >= 37], the
    first frame count that takes it below height 4. *)
Theorem new_enemy_fires_after_37_frames
        (k : nat) (r vw : Q) (rr : Random) (g : Game) (sc : Scene) :
  sceneRef g = Some sc ->
  enemiesRef g = [Nat.iter k advanceEnemy (spawnedEnemy r vw)] ->
  validRandom rr ->
  ((k <= 36)%nat -> enemyShootInterval rr g = g) /\
  ((37 <= k)%nat ->
   length (enemyBulletsRef (enemyShootInterval rr g))
   = S (length (enemyBulletsRef g))).
Proof.
  intros Hs He Hrr.
  set (e := Nat.iter k advanceEnemy (spawnedEnemy r vw)) in *.
  assert (Hi : randomIndex rr 1 = 0%nat).
  { pose proof (randomIndex_in_range rr 1 Hrr). lia. }
  assert (Hstep : enemyShootInterval rr g
                  = if Qlt_bool (pos_y e) 4
                    then set_enemyBullets
                           (enemyBulletsRef g
                            ++ [mkMesh (pos_x e)
                                  (pos_y e - ENEMY_HEIGHT / 2
                                   - ENEMY_BULLET_HEIGHT / 2)%Q]) g
                    else g).
  { unfold enemyShootInterval. rewrite Hs, He. cbn [length].
    now rewrite Hi. }
  destruct (iter_advanceEnemy k (spawnedEnemy r vw)) as (_ & Hy).
  fold e in Hy. cbn [spawnedEnemy pos_y] in Hy.
  split.
  - intros Hk. rewrite Hstep.
    replace (Qlt_bool (pos_y e) 4) with false; [reflexivity|].
    symmetry. apply Qlt_bool_false_iff. rewrite Hy.
    assert (Hq : (inject_Z (Z.of_nat k) <= 36)%Q).
    { change 36%Q with (inject_Z 36). rewrite <- Zle_Qle. lia. }
    unfold ENEMY_HEIGHT, ENEMY_SPEED, Qdiv. change (/ 2)%Q with (1 # 2)%Q.
    lra.
  - intros Hk. rewrite Hstep.
    replace (Qlt_bool (pos_y e) 4) with true.
    + cbn [set_enemyBullets enemyBulletsRef]. rewrite length_app. cbn. lia.
    + symmetry. apply Qlt_bool_iff. rewrite Hy.
      assert (Hq : (37 <= inject_Z (Z.of_nat k))%Q).
      { change 37%Q with (inject_Z 37). rewrite <- Zle_Qle. lia. }
      unfold ENEMY_HEIGHT, ENEMY_SPEED, Qdiv. change (/ 2)%Q with (1 # 2)%Q.
      lra.
Qed.

Lemma new_enemy_fires_after_37_frames_witness :
  enemyShootInterval drawHalf hurried = hurried.
Proof.
  refine (proj1 (new_enemy_fires_after_37_frames 36 (1 # 2) (40 # 3) drawHalf
                   hurried (mkScene 0x0a0a2a) eq_refl eq_refl _) _).
  - vm_compute. repeat split; discriminate.
  - lia.
Defined.

(** * How long an explosion lasts *)

Lemma ticks_succ k ex :
  ticks (S k) ex
  = match ticks k ex with
    | Some e => explosionFate e
    | None => None
    end.
Proof. reflexivity. Qed.

Lemma ticks_spec (k : nat) (ex : Explosion) :
  (0 < timer ex)%Q ->
  match ticks k ex with
  | Some ex' =>
    mesh ex' = mesh ex /\
    (timer ex' == timer ex - inject_Z (Z.of_nat k) / 60)%Q /\
    (inject_Z (Z.of_nat k) / 60 < timer ex)%Q
  | None => (timer ex <= inject_Z (Z.of_nat k) / 60)%Q
  end.
Proof.
  intros Hpos. induction k as [|k IH].
  - change (ticks 0 ex) with (Some ex).
    change (inject_Z (Z.of_nat 0)) with 0%Q.
    unfold Qdiv. change (/ 60)%Q with (1 # 60)%Q.
    split; [reflexivity|]. split; lra.
  - rewrite ticks_succ.
    assert (Hk : (inject_Z (Z.of_nat (S k)) == inject_Z (Z.of_nat k) + 1)%Q).
    { rewrite Nat2Z.inj_succ. unfold Z.succ. rewrite inject_Z_plus.
      reflexivity. }
    destruct (ticks k ex) as [e|].
    + destruct IH as (Hm & Ht & Hlt). unfold explosionFate. cbn [timer].
      destruct (Qle_bool _ 0) eqn:E.
      * apply Qle_bool_iff in E. rewrite Hk, Ht in *.
        unfold Qdiv in *. change (/ 60)%Q with (1 # 60)%Q in *. lra.
      * assert (Hgt : (0 < timer e - 1 / 60)%Q).
        { apply Qnot_le_lt. intros Hle. apply Qle_bool_iff in Hle.
          congruence. }
        cbn [mesh timer]. split; [exact Hm|].
        rewrite Hk, Ht in *.
        unfold Qdiv in *. change (/ 60)%Q with (1 # 60)%Q in *.
        split; lra.
    + rewrite Hk. unfold Qdiv in *. change (/ 60)%Q with (1 # 60)%Q in *.
      lra.
Qed.

(** X11.
    An explosion made with countdown [t > 0] is still there after [k] turns
    of the loop over explosions when [k / 60 < t], with countdown
    [t - k / 60] and at the place where it was made, and it is gone when
    [t < k / 60].  (When [k / 60] is exactly [t], the rounding of the
    machine numbers decides, and nothing is said.)  So the explosion of a
    destroyed enemy (0.35) is drawn for at least 20 frames and is gone after
    22 turns, and the explosion of a hit on the player (0.5) is drawn for at
    least 29 frames and is gone after 31 turns. *)
Theorem explosion_lasts_sixty_times_its_countdown
        (k : nat) (ex : Explosion) :
  (0 < timer ex)%Q ->
  ((inject_Z (Z.of_nat k) / 60 < timer ex)%Q ->
   exists ex', ticks k ex = Some ex' /\ mesh ex' = mesh ex /\
               (timer ex' == timer ex - inject_Z (Z.of_nat k) / 60)%Q) /\
  ((timer ex < inject_Z (Z.of_nat k) / 60)%Q -> ticks k ex = None) /\
  (forall e, is_Some (ticks 20 (marker e)) /\ ticks 22 (marker e) = None) /\
  (forall p, is_Some (ticks 29 (mkExplosion p (5 # 10))) /\
             ticks 31 (mkExplosion p (5 # 10)) = None).
Proof.
  intros Hpos. pose proof (ticks_spec k ex Hpos) as H.
  split; [|split; [|split]].
  - intros Hlt. destruct (ticks k ex) as [e|].
    + exists e. destruct H as (Hm & Ht & _). auto.
    + exfalso. exact (Qlt_not_le _ _ Hlt H).
  - intros Hlt. destruct (ticks k ex) as [e|]; [|reflexivity].
    destruct H as (_ & _ & Hlt'). exfalso.
    exact (Qlt_irrefl _ (Qlt_trans _ _ _ Hlt Hlt')).
  - intros e. split; [eexists|]; vm_compute; reflexivity.
  - intros p. split; [eexists|]; vm_compute; reflexivity.
Qed.

Lemma explosion_lasts_sixty_times_its_countdown_witness :
  (exists ex', ticks 20 (marker (mkMesh 0 5)) = Some ex' /\
               (timer ex' == 1 # 60)%Q) /\
  ticks 22 (marker (mkMesh 0 5)) = None.
Proof.
  destruct (explosion_lasts_sixty_times_its_countdown 20
              (marker (mkMesh 0 5)) eq_refl) as (H20 & _).
  destruct (explosion_lasts_sixty_times_its_countdown 22
              (marker (mkMesh 0 5)) eq_refl) as (_ & H22 & _).
  split.
  - destruct H20 as (ex' & E & _ & Ht); [reflexivity|].
    exists ex'. split; [exact E|]. rewrite Ht. reflexivity.
  - apply H22. reflexivity.
Defined.

(** * The game over time *)

Lemma tally_gameEffect g : tally (gameEffect g) = tally g.
Proof.
  destruct (gameOver g) eqn:Hgo.
  - now rewrite gameEffect_over.
  - unfold tally. now destruct (gameEffect_fields g Hgo) as (-> & -> & _).
Qed.

Lemma tally_shoot g : tally (shoot g) = tally g.
Proof. unfold shoot. now destruct (sceneRef g), (playerRef g). Qed.

Lemma tally_onKeyDown e g : tally (onKeyDown e g) = tally g.
Proof.
  unfold onKeyDown.
  destruct (_ || _)%bool; [rewrite tally_shoot|]; reflexivity.
Qed.

Lemma tally_enemyInterval r g : tally (enemyInterval r g) = tally g.
Proof. unfold enemyInterval. now destruct (sceneRef g). Qed.

Lemma tally_enemyShootInterval r g :
  tally (enemyShootInterval r g) = tally g.
Proof.
  unfold enemyShootInterval.
  destruct (sceneRef g); [|reflexivity].
  destruct (enemiesRef g) as [|e0 es]; [reflexivity|].
  destruct (_ !! _); [|reflexivity].
  now destruct (Qlt_bool _ _).
Qed.

Lemma tally_rerender g g' : tally (rerender g g') = tally g'.
Proof.
  unfold rerender, runEffect.
  destruct (Bool.eqb _ _); [reflexivity|].
  rewrite tally_gameEffect. now destruct (gameOver g).
Qed.

Lemma tally_fields g g' :
  tally g = tally g' -> score g = score g' /\ lives g = lives g'.
Proof. unfold tally. intros [= -> ->]. auto. Qed.

Lemma score_lives_frame g p :
  score g <= score (frame g p) /\ lives (frame g p) <= lives g.
Proof.
  rewrite lives_frame. destruct (frame_beside g p) as (-> & _).
  destruct (updateBullets_spec (set_player p g))
    as (d & _ & _ & _ & _ & _ & -> & _).
  cbn [set_player score]. lia.
Qed.

(** The score never goes below 0 and the lives never above 3. *)
Lemma deliver_within_limits ev g g' :
  sound g -> deliver ev g = Some g' ->
  0 <= score g -> lives g <= 3 ->
  0 <= score g' /\ lives g' <= 3.
Proof.
  intros (_ & _ & [p0 Hp] & [sc Hs]) Hd Hsc Hl.
  assert (Hkeep : forall s, tally s = tally g ->
                            0 <= score s /\ lives s <= 3).
  { unfold tally. intros s [= -> ->]. auto. }
  destruct ev as [|e|e|r|r|sz|]; cbn [deliver] in Hd.
  - destruct (running g) eqn:Hr.
    + rewrite (animate_frame g p0 sc Hr Hp Hs) in Hd. injection Hd as <-.
      destruct (tally_fields _ _ (tally_rerender g
        (frame g (movePlayer (moveRef g) (viewWidth g) p0)))) as (-> & ->).
      pose proof (score_lives_frame g
        (movePlayer (moveRef g) (viewWidth g) p0)). lia.
    + unfold animate in Hd. rewrite Hr in Hd. cbn [negb] in Hd.
      injection Hd as <-. apply Hkeep, tally_rerender.
  - injection Hd as <-. destruct (running g); [|auto].
    apply Hkeep, tally_onKeyDown.
  - injection Hd as <-. destruct (running g); auto.
  - injection Hd as <-. destruct (running g); [|auto].
    apply Hkeep, tally_enemyInterval.
  - injection Hd as <-. destruct (running g); [|auto].
    apply Hkeep, tally_enemyShootInterval.
  - injection Hd as <-. apply Hkeep. unfold runEffect.
    rewrite tally_gameEffect. now destruct (gameOver g).
  - injection Hd as <-. destruct (gameOver g) eqn:Hgo; [|auto].
    destruct (tally_fields _ _ (tally_rerender g (handleRestart g)))
      as (-> & ->).
    cbn. lia.
Qed.

(** X12.
    Whatever the keys, the timers, the frames, the resizes and the clicks,
    and in whatever order: [animate] never fails on a missing player or
    scene; [gameOver] is on exactly when no life is left, and the frame loop
    runs exactly while it is off; the score is never negative and the lives
    never more than three; the row of life icons shows as many ships as
    there are lives while the game is on, and none once it is over. *)
Theorem every_run_stays_sound (evs : list Event) (sz : Size) :
  exists g,
    run evs (mount sz) = Some g /\
    sound g /\
    0 <= score g /\ lives g <= 3 /\
    (gameOver g = false ->
     0 < lives g /\ Z.of_nat (length (LivesIcons g)) = lives g) /\
    (gameOver g = true -> LivesIcons g = []).
Proof.
  assert (Hgen : forall evs g0,
             sound g0 -> 0 <= score g0 -> lives g0 <= 3 ->
             exists g, run evs g0 = Some g /\ sound g /\
                       0 <= score g /\ lives g <= 3).
  { clear. induction evs as [|ev evs IH]; intros g0 Hs Hsc Hl.
    - exists g0. cbn. auto.
    - cbn [run]. destruct (sound_deliver ev g0 Hs) as (g1 & Hd & Hs1).
      rewrite Hd.
      destruct (deliver_within_limits ev g0 g1 Hs Hd Hsc Hl) as (Hsc1 & Hl1).
      now apply IH. }
  destruct (Hgen evs (mount sz) (sound_mount sz)) as (g & Hrun & Hs & Hsc & Hl).
  - unfold mount.
    destruct (gameEffect_fields (initial sz) eq_refl) as (-> & _). cbn. lia.
  - unfold mount.
    destruct (gameEffect_fields (initial sz) eq_refl) as (_ & -> & _).
    cbn. lia.
  - exists g. split; [exact Hrun|]. split; [exact Hs|].
    split; [exact Hsc|]. split; [exact Hl|]. split.
    + intros Hgo. pose proof (in_play_lives_positive g Hs Hgo).
      split; [assumption|].
      unfold LivesIcons. rewrite length_replicate. lia.
    + intros Hgo. destruct Hs as ((HJ & _) & _). apply HJ in Hgo.
      unfold LivesIcons. replace (Z.to_nat (lives g)) with 0%nat by lia.
      reflexivity.
Qed.

Lemma every_run_stays_sound_witness :
  exists g,
    run lostGame (mount (mkSize 800 600%positive)) = Some g /\
    gameOver g = true /\ lives g = 0 /\ LivesIcons g = [].
Proof.
  destruct (every_run_stays_sound lostGame (mkSize 800 600%positive))
    as (g & Hrun & _ & _ & _ & _ & Hicons).
  exists g. split; [exact Hrun|].
  assert (Hgo : gameOver g = true /\ lives g = 0).
  { vm_compute in Hrun. injection Hrun as <-. split; reflexivity. }
  split; [apply Hgo|]. split; [apply Hgo|]. apply Hicons, Hgo.
Defined.

(** X13.
    Once the game is over nothing moves any more: frames, keys and timer
    ticks leave the state as it is, until the restart button is clicked or
    the window is resized. *)
Theorem game_over_freezes_the_game
        (evs : list Event) (sz : Size) (g : Game) (ev : Event) :
  run evs (mount sz) = Some g -> gameOver g = true -> passive ev = true ->
  deliver ev g = Some g.
Proof.
  intros Hrun Hgo Hev.
  destruct (sound_run evs (mount sz) (sound_mount sz)) as (g' & Hrun' & Hs).
  rewrite Hrun in Hrun'. injection Hrun' as <-.
  destruct Hs as (_ & Hr & _). rewrite Hgo in Hr. cbn [negb] in Hr.
  destruct ev as [|e|e|r|r|sz'|]; cbn [deliver passive] in *;
    try discriminate; rewrite ?Hr; try reflexivity.
  unfold animate. rewrite Hr. cbn [negb]. unfold rerender.
  now rewrite eqb_reflx.
Qed.

Lemma game_over_freezes_the_game_witness :
  exists g,
    run lostGame (mount (mkSize 800 600%positive)) = Some g /\
    deliver Frame g = Some g /\
    deliver (KeyDown spaceKey) g = Some g /\
    deliver (EnemyTimer (1 # 2)) g = Some g.
Proof.
  eexists. split; [vm_compute; reflexivity|].
  split; [|split];
    apply (game_over_freezes_the_game lostGame (mkSize 800 600%positive));
    reflexivity || (vm_compute; reflexivity).
Defined.

(** X14.
    A resize while the game is on builds the round anew and runs its first
    frame: the enemies, the enemy bullets and the explosions are dropped and
    every held direction is released; the player is put at (0, -4) and
    clamped into the new view, so it is at (0, -4) whenever the view is at
    least as wide as the ship; the score and the lives are kept; the
    player's bullets are kept too, each moved one step up by that frame or
    removed by it if that takes it past the upper limit.  A resize while the
    game is over only records the new size. *)
Theorem resize_rebuilds_the_round (sz : Size) (g : Game) :
  (gameOver g = false ->
   exists g' p,
     deliver (Resize sz) g = Some g' /\
     enemiesRef g' = [] /\ enemyBulletsRef g' = [] /\ explosions g' = [] /\
     moveRef g' = mkMove false false false false /\
     canvasSize g' = sz /\
     viewWidth g'
     = (viewHeight * (inject_Z (width sz) / inject_Z (Z.pos (height sz))))%Q /\
     running g' = true /\ gameOver g' = false /\
     score g' = score g /\ lives g' = lives g /\
     bulletsRef g' = omap bulletFate (bulletsRef g) /\
     playerRef g' = Some p /\
     p = movePlayer (mkMove false false false false) (viewWidth g')
           (mkMesh 0 (-4)) /\
     ((PLAYER_WIDTH <= viewWidth g')%Q ->
      (pos_x p == 0)%Q /\ (pos_y p == -4)%Q)) /\
  (gameOver g = true ->
   deliver (Resize sz) g = Some (setCanvasSize sz g)).
Proof.
  split; intros Hgo; cbn [deliver]; unfold runEffect; rewrite Hgo.
  - destruct (gameEffect_fields (cleanup (setCanvasSize sz g)) Hgo)
      as (Hsc & Hl & Hgo' & Hr & Hc & _ & Hp & Hb & He & Heb & Hx & Hm & Hv).
    eexists. eexists. split; [reflexivity|].
    rewrite Hsc, Hl, Hgo', Hr, Hc, Hb, He, Heb, Hx, Hm, Hv.
    repeat (split; [reflexivity|]).
    split; [exact Hp|]. split; [reflexivity|].
    cbn [roundSetup viewWidth cleanup set_running setCanvasSize canvasSize].
    set (vw := (viewHeight * _)%Q). intros Hw.
    unfold movePlayer. cbn [pos_x pos_y move_left move_right move_up
                            move_down].
    unfold PLAYER_WIDTH, PLAYER_HEIGHT, viewHeight, Qdiv in *.
    change (/ 2)%Q with (1 # 2)%Q.
    split; apply clamp_inside; lra.
  - now rewrite gameEffect_over.
Qed.

Lemma resize_rebuilds_the_round_witness :
  exists g' b,
    deliver (Resize (mkSize 1024 768%positive)) oneKill = Some g' /\
    enemiesRef g' = [] /\ bulletsRef g' = [b] /\
    bulletsRef oneKill = [mkMesh 0 (49 # 10)] /\
    (pos_y b == 51 # 10)%Q.
Proof.
  destruct (proj1 (resize_rebuilds_the_round (mkSize 1024 768%positive) oneKill)
              eq_refl)
    as (g' & p & Hd & He & _ & _ & _ & _ & _ & _ & _ & _ & _ & Hb & _).
  exists g'. eexists. split; [exact Hd|]. split; [exact He|].
  split; [rewrite Hb; vm_compute; reflexivity|].
  split; reflexivity.
Defined.

(** X18.
    The effect that builds a round ends by running the first frame itself
    (line 698).  When it returns, no point and no life has changed, there is
    no enemy, no enemy bullet and no explosion, the bullets that an earlier
    round left have moved one step up or gone past the upper limit, and the
    player, placed at (0, -4), has been clamped into the view: it is at
    (0, -4) when the view is at least as wide as the ship, and at the left
    bound, to the right of the centre, when it is not. *)
Theorem round_starts_with_a_frame (g : Game) :
  gameOver g = false ->
  let vw := viewWidth (gameEffect g) in
  animate (roundSetup g) = Some (gameEffect g) /\
  score (gameEffect g) = score g /\ lives (gameEffect g) = lives g /\
  enemiesRef (gameEffect g) = [] /\ enemyBulletsRef (gameEffect g) = [] /\
  explosions (gameEffect g) = [] /\
  bulletsRef (gameEffect g) = omap bulletFate (bulletsRef g) /\
  exists p,
    playerRef (gameEffect g) = Some p /\
    ((PLAYER_WIDTH <= vw)%Q -> (pos_x p == 0)%Q) /\
    ((vw < PLAYER_WIDTH)%Q -> (pos_x p == - vw / 2 + PLAYER_WIDTH / 2)%Q) /\
    (pos_y p == -4)%Q.
Proof.
  intros Hgo vw.
  destruct (gameEffect_fields g Hgo)
    as (Hsc & Hl & _ & _ & _ & _ & Hp & Hb & He & Heb & Hx & _ & Hv).
  split.
  { unfold gameEffect. rewrite Hgo.
    now rewrite (animate_frame (roundSetup g) (mkMesh 0 (-4))
                   (mkScene 0x0a0a2a)) by reflexivity. }
  do 6 (split; [assumption|]).
  eexists. split; [exact Hp|].
  unfold vw. rewrite Hv. set (w := viewWidth (roundSetup g)).
  unfold movePlayer. cbn [pos_x pos_y move_left move_right move_up move_down].
  unfold PLAYER_WIDTH, PLAYER_HEIGHT, viewHeight, Qdiv.
  change (/ 2)%Q with (1 # 2)%Q.
  split; [|split].
  - intros Hw. apply clamp_inside; lra.
  - intros Hw.
    destruct (Q.max_spec (- w * (1 # 2) + (5 # 10) * (1 # 2))
                (Qmin (w * (1 # 2) - (5 # 10) * (1 # 2)) 0))
      as [[Hm Em]|[Hm Em]];
      destruct (Q.min_spec (w * (1 # 2) - (5 # 10) * (1 # 2)) 0)
        as [[Hn En]|[Hn En]];
      rewrite Em; rewrite ?En in *; lra.
  - apply clamp_inside; lra.
Qed.

Lemma round_starts_with_a_frame_witness :
  exists p,
    playerRef narrow = Some p /\ (pos_x p == 5 # 100)%Q /\
    (pos_y p == -4)%Q.
Proof.
  destruct (round_starts_with_a_frame (initial (mkSize 40 1000%positive))
              eq_refl)
    as (_ & _ & _ & _ & _ & _ & _ & p & Hp & _ & Hx & Hy).
  exists p. split; [exact Hp|]. split; [|exact Hy].
  rewrite Hx; [reflexivity|]. reflexivity.
Defined.

(** * The high score *)

Lemma highScoreEffect_max sc b :
  highScore (highScoreEffect sc b) = Z.max sc (highScore b).
Proof.
  unfold highScoreEffect. destruct (highScore b <? sc) eqn:E; cbn.
  - apply Z.ltb_lt in E. lia.
  - apply Z.ltb_ge in E. lia.
Qed.

Lemma highScoreEffect_stored sc b :
  loadHighScore (storedHighScore b) = highScore b ->
  loadHighScore (storedHighScore (highScoreEffect sc b))
  = highScore (highScoreEffect sc b).
Proof.
  intros H. unfold highScoreEffect. now destruct (highScore b <? sc).
Qed.

(** X15.
    The high score is the best score there has been, kept across restarts:
    after any sequence of events it is at least the present score and at
    least the value loaded at the start, it was never lowered on the way,
    and the stored item reads back as exactly the high score shown.  The
    effect that updates it has nothing left to do when it runs again. *)
Theorem high_score_is_best_and_stored
        (evs : list Event) (sz : Size) (item : option Z) :
  exists g b,
    runScored evs (mountScored sz item) = Some (g, b) /\
    score g <= highScore b /\
    loadHighScore item <= highScore b /\
    loadHighScore (storedHighScore b) = highScore b /\
    highScoreEffect (score g) b = b.
Proof.
  assert (Hgen : forall evs g0 b0 lo,
             sound g0 -> score g0 <= highScore b0 -> lo <= highScore b0 ->
             loadHighScore (storedHighScore b0) = highScore b0 ->
             exists g b, runScored evs (g0, b0) = Some (g, b) /\
                         score g <= highScore b /\ lo <= highScore b /\
                         loadHighScore (storedHighScore b) = highScore b).
  { clear. induction evs as [|ev evs IH]; intros g0 b0 lo Hs Hsc Hlo Hst.
    - exists g0, b0. cbn. auto.
    - cbn [runScored]. unfold deliverScored. cbn [fst snd].
      destruct (sound_deliver ev g0 Hs) as (g1 & -> & Hs1).
      apply IH; [exact Hs1| | |now apply highScoreEffect_stored];
        rewrite highScoreEffect_max; lia. }
  destruct (Hgen evs (mount sz)
              (highScoreEffect (score (mount sz)) (initialBoard item))
              (loadHighScore item) (sound_mount sz))
    as (g & b & Hrun & Hsc & Hlo & Hst).
  - rewrite highScoreEffect_max. lia.
  - rewrite highScoreEffect_max. cbn [initialBoard highScore]. lia.
  - now apply highScoreEffect_stored.
  - exists g, b. repeat split; try assumption.
    unfold highScoreEffect.
    replace (highScore b <? score g) with false; [reflexivity|].
    symmetry. apply Z.ltb_ge. exact Hsc.
Qed.

(** * Counting *)

Lemma bullets_loop_count pre :
  forall suf g,
    bulletsRef g = pre ++ suf ->
    let g' := forDown (length pre) bulletStep g in
    (length (enemiesRef g') <= length (enemiesRef g))%nat /\
    (length (bulletsRef g')
     + countIf (fun b => bulletGone (advanceBullet b)) pre
     + (length (enemiesRef g) - length (enemiesRef g'))
     = length pre + length suf)%nat.
Proof.
  induction pre as [|a pre IH] using rev_ind; intros suf g H.
  - cbn. rewrite H. cbn. lia.
  - rewrite length_app, Nat.add_1_r. cbn [forDown].
    assert (Ha : bulletsRef g !! length pre = Some a)
      by (rewrite H; apply lookup_snoc_app).
    rewrite (bulletStep_outcome _ _ _ Ha), H.
    rewrite delete_snoc_app, insert_snoc_app, countIf_snoc.
    unfold bulletOutcome.
    destruct (bulletGone (advanceBullet a)) eqn:Hgone.
    + destruct (IH suf (set_bullets (pre ++ suf) g) eq_refl) as (Hle & Heq).
      cbn zeta in *. cbn [enemiesRef set_bullets] in *. lia.
    + destruct (scanEnemies _ _ _) as [[j e]|] eqn:Scan.
      * apply scanEnemies_Some in Scan as (Hj & He & _).
        match goal with |- context [forDown _ _ ?s] =>
          destruct (IH suf s eq_refl) as (Hle & Heq)
        end.
        cbn zeta in *.
        cbn [enemiesRef setScore set_enemies set_bullets push_explosion
             set_explosions] in *.
        rewrite length_delete in Hle, Heq by eauto. lia.
      * destruct (IH (advanceBullet a :: suf)
                     (set_bullets (pre ++ advanceBullet a :: suf) g) eq_refl)
          as (Hle & Heq).
        cbn zeta in *. cbn [enemiesRef set_bullets length] in *. lia.
Qed.

(** X16.
    Every bullet of the player ends the loop over bullets in exactly one
    way: removed past the upper limit, spent on one enemy, or left in the
    array.  So the enemies destroyed are as many as the bullets spent: two
    bullets on one enemy destroy it once and one of them flies on; and a
    frame scores at most one point per bullet and at most one per enemy. *)
Theorem every_bullet_ends_one_way (g : Game) :
  let gb := updateBullets g in
  let pruned := countIf (fun b => bulletGone (advanceBullet b))
                        (bulletsRef g) in
  let destroyed := (length (enemiesRef g) - length (enemiesRef gb))%nat in
  (length (bulletsRef gb) + pruned + destroyed
   = length (bulletsRef g))%nat /\
  score gb = score g + Z.of_nat destroyed /\
  (destroyed <= length (bulletsRef g))%nat /\
  (destroyed <= length (enemiesRef g))%nat.
Proof.
  cbn zeta. unfold updateBullets.
  destruct (bullets_loop_count (bulletsRef g) [] g) as (Hle & Heq);
    [now rewrite app_nil_r|].
  cbn zeta in Hle, Heq. cbn [length] in Heq.
  destruct (updateBullets_spec g) as (d & _ & _ & Hperm & _ & _ & Hsc & _).
  unfold updateBullets in Hperm, Hsc.
  apply Permutation_length in Hperm. rewrite length_app in Hperm.
  split; [lia|]. split; [rewrite Hsc; lia|]. lia.
Qed.

Lemma countIf_none {A : Type} (f : A -> bool) (l : list A) :
  Forall (fun a => f a = false) l -> countIf f l = 0%nat.
Proof.
  unfold countIf. induction 1 as [|a l Ha _ IH]; cbn; [reflexivity|].
  now rewrite Ha.
Qed.

(** X17.
    Everything that comes down comes straight down, so a player who is to
    the side is safe: if, where the frame puts the player, every enemy
    bullet is at least [(ENEMY_BULLET_WIDTH + PLAYER_WIDTH) / 2] away in [x]
    and every enemy at least [(ENEMY_WIDTH + PLAYER_WIDTH) / 2] away in [x],
    then the frame takes no life and does not end the game. *)
Theorem player_to_the_side_is_safe (g : Game) (p0 : Mesh) (sc : Scene) :
  running g = true -> playerRef g = Some p0 -> sceneRef g = Some sc ->
  let p := movePlayer (moveRef g) (viewWidth g) p0 in
  Forall (fun b => ((ENEMY_BULLET_WIDTH + PLAYER_WIDTH) / 2
                    <= Qabs (pos_x b - pos_x p))%Q) (enemyBulletsRef g) ->
  Forall (fun e => ((ENEMY_WIDTH + PLAYER_WIDTH) / 2
                    <= Qabs (pos_x e - pos_x p))%Q) (enemiesRef g) ->
  exists g',
    animate g = Some g' /\
    lives g' = lives g /\ gameOver g' = gameOver g.
Proof.
  intros Hr Hp Hs p Hbs Hes. exists (frame g p).
  split; [now apply (animate_frame g p0 sc)|].
  assert (Hhits : playerHits g p = 0%nat).
  { unfold playerHits. rewrite !countIf_none; [reflexivity| |].
    - destruct (updateBullets_spec (set_player p g))
        as (d & _ & _ & _ & Hsub & _).
      cbn [enemiesRef set_player] in Hsub.
      apply Forall_forall. intros e He.
      apply (elem_of_sublist _ _ _ He) in Hsub.
      rewrite Forall_forall in Hes. specialize (Hes e Hsub).
      unfold enemyRams, enemyHitsPlayer, overlap, advanceEnemy.
      cbn [pos_x pos_y]. apply andb_false_iff. left.
      now apply Qlt_bool_false_iff.
    - eapply Forall_impl; [exact Hbs|]. intros b Hb.
      unfold enemyBulletStrikes, enemyBulletHitsPlayer, overlap,
        advanceEnemyBullet.
      cbn [pos_x pos_y]. apply andb_false_iff. right.
      apply andb_false_iff. left. now apply Qlt_bool_false_iff. }
  rewrite lives_frame, gameOver_frame, Hhits. cbn.
  split; [lia|apply orb_false_r].
Qed.

Lemma player_to_the_side_is_safe_witness :
  exists g',
    animate sideStep = Some g' /\ lives g' = 3 /\ gameOver g' = false.
Proof.
  apply (player_to_the_side_is_safe sideStep (mkMesh 0 (-4))
           (mkScene 0x0a0a2a) eq_refl eq_refl eq_refl).
  - repeat constructor. vm_compute. discriminate.
  - repeat constructor. vm_compute. discriminate.
Defined.
